(** * Fixed-point quantization primitives and the CommonBits bit-field
      container of [common.py], embedded in Rocq.

    Python integers are unbounded, so they are modelled by [Z]:
    [//] is [Z.div] (floor division), [%] is [Z.modulo] (sign of the divisor),
    [&], [|], [~] are [Z.land], [Z.lor], [Z.lnot] on the infinite
    two's-complement representation, [>>] and [<<] are [Z.shiftr] and
    [Z.shiftl] for a non-negative shift count (a negative count raises
    [ValueError] in Python).

    The code reports every misuse with [print] and carries on; nothing in
    the module raises on purpose.  The embedding therefore records, for each
    call, what was printed and how the call ended. *)

From Stdlib Require Import ZArith Lia List String Ascii Bool DecimalString.
From Equations Require Import Equations.
Import ListNotations.
Local Open Scope string_scope.
Local Open Scope list_scope.
Local Open Scope Z_scope.

(** ** Outcome of a Python call *)

(** Exceptions the interpreter itself raises in the modelled code. *)
Inductive exn : Type :=
| ValueError          (* negative shift count *)
| TypeError           (* [&] between an int and a float *)
| AttributeError      (* [self.data] read before it was assigned *)
| UnboundLocalError.  (* local variable read before it was assigned *)

(** How a call ends.  [NonInteger] stands for the calls that leave integer
    arithmetic: [2**e] with [e < 0] is a float in Python, and the functions
    that go on computing with it are not followed any further. *)
Inductive result (A : Type) : Type :=
| Returned (a : A)
| Raised (e : exn)
| NonInteger.
Arguments Returned {A} a.
Arguments Raised {A} e.
Arguments NonInteger {A}.

(** A call: its end and the lines it wrote to standard output, in order. *)
Record Py (A : Type) : Type := mkPy { outcome : result A; printed : list string }.
Arguments mkPy {A} outcome printed.
Arguments outcome {A} p.
Arguments printed {A} p.

Definition ret {A} (a : A) : Py A := mkPy (Returned a) [].
Definition raise {A} (e : exn) : Py A := mkPy (Raised e) [].
Definition non_integer {A} : Py A := mkPy NonInteger [].
Definition print (line : string) : Py unit := mkPy (Returned tt) [line].

Definition bind {A B} (m : Py A) (f : A -> Py B) : Py B :=
  match outcome m with
  | Returned a => let k := f a in mkPy (outcome k) (printed m ++ printed k)
  | Raised e => mkPy (Raised e) (printed m)
  | NonInteger => mkPy NonInteger (printed m)
  end.

Declare Scope py_scope.
Delimit Scope py_scope with py.
Notation "x <- m ;; k" := (bind m (fun x => k))
  (at level 61, m at next level, right associativity) : py_scope.
Notation "m ;; k" := (bind m (fun _ => k))
  (at level 61, right associativity) : py_scope.
Local Open Scope py_scope.

(** [a >> b] and [a << b]. *)
Definition rshift (a b : Z) : Py Z :=
  if b <? 0 then raise ValueError else ret (Z.shiftr a b).
Definition lshift (a b : Z) : Py Z :=
  if b <? 0 then raise ValueError else ret (Z.shiftl a b).

(** [2**e] (also [pow(2, e)]), where the exponent is not guarded by the caller. *)
Definition pow2 (e : Z) : Py Z :=
  if e <? 0 then non_integer else ret (2 ^ e).

(** [%d] formatting of an integer. *)
Definition fmt_d (z : Z) : string := NilZero.string_of_int (Z.to_int z).

(** ** Quantization primitives *)

(** [int_clip(inp, w, symmetric=False)].  [2**(w-1)] is evaluated under
    [w > 0] only, so it is an integer power. *)
Definition int_clip (inp w : Z) (symmetric : bool) : Z :=
  if 0 <? w then
    let clip_p := 2 ^ (w - 1) - 1 in
    let clip_n := if symmetric then - 2 ^ (w - 1) + 1 else - 2 ^ (w - 1) in
    if clip_p <? inp then clip_p
    else if inp <? clip_n then clip_n
    else inp
  else 0.

(** [int_wrap(inp, w)]. *)
Definition int_wrap (inp w : Z) : Z :=
  if 0 <? w then
    let wrap_mask := 2 ^ (w - 1) - 1 in
    let wrap_sign := 2 ^ (w - 1) in
    if Z.land inp wrap_sign =? 0 then Z.land inp wrap_mask
    else Z.land inp wrap_mask - wrap_sign
  else 0.

(** [int_round(inp, r, direction="HALF_AWAY", clip=False, outp_w=0)].
    [direction] is compared with the three literal tokens; any other string
    falls to the [else] branch, which prints and leaves [outp = inp]. *)
Definition int_round (inp r : Z) (direction : string) (clip : bool) (outp_w : Z) : Py Z :=
  if 0 <? r then
    let round_factor := 2 ^ r in
    let round_p := 2 ^ (r - 1) in
    let round_n := 2 ^ (r - 1) - 1 in
    outp <- (if String.eqb direction "HALF_UP" then
               ret ((inp + round_p) / round_factor)
             else if String.eqb direction "HALF_AWAY" then
               if 0 <=? inp then ret ((inp + round_p) / round_factor)
               else ret ((inp + round_n) / round_factor)
             else if String.eqb direction "HALF_EVEN" then
               let outp := (inp + round_p) / round_factor in
               if inp mod round_factor =? round_p then
                 if outp mod 2 =? 1 then ret (outp - 1) else ret outp
               else ret outp
             else
               print "int_round: Error: unsupported round direction" ;;
               ret inp) ;;
    if clip then
      p <- pow2 (outp_w - 1) ;;
      let clip_max := p - 1 in
      if clip_max <? outp then ret clip_max else ret outp
    else ret outp
  else ret inp.

(** [uint_round(inp, r, direction="HALF_UP", clip=False, outp_w=0)]; the
    [else] branch prints and returns [None]. *)
Definition uint_round (inp r : Z) (direction : string) (clip : bool) (outp_w : Z)
  : Py (option Z) :=
  if 0 <=? inp then
    v <- int_round inp r direction clip (outp_w + 1) ;; ret (Some v)
  else
    print "uint_round: Error: unsigned inp must be >= 0" ;; ret None.

(** [int_truncate(inp, r, direction='')]. *)
Definition int_truncate (inp r : Z) (direction : string) : Z :=
  if 0 <? r then
    if String.eqb direction "SYMMETRIC" then
      if 0 <=? inp then Z.shiftr inp r else - Z.shiftr (- inp) r
    else Z.shiftr inp r
  else inp.

(** [int_requantize(inp, inp_w, outp_w, lsb_w=0, lsb_round=False,
    msb_clip=False, gain_w=0)].  The inner calls use the defaults of the
    callees: [int_round(r, lsb_w)], [int_truncate(r, lsb_w)],
    [int_clip(r, outp_w)]. *)
Definition int_requantize (inp inp_w outp_w lsb_w : Z) (lsb_round msb_clip : bool)
    (gain_w : Z) : Py Z :=
  let r := int_wrap inp inp_w in
  r <- (if lsb_round then int_round r lsb_w "HALF_AWAY" false 0
        else ret (int_truncate r lsb_w "")) ;;
  let r := if msb_clip then int_clip r outp_w false else int_wrap r outp_w in
  r <- lshift r gain_w ;;
  ret (int_wrap r outp_w).

(** ** Scalar-or-list arguments *)

(** [to_signed] accepts one value or a list of values. *)
Inductive pyarg : Type :=
| Scalar (v : Z)
| PyList (l : list Z).

Definition listify (x : pyarg) : list Z :=
  match x with
  | PyList l => l
  | Scalar v => [v]
  end.

Definition unlistify (x : list Z) : pyarg :=
  match x with
  | [v] => Scalar v
  | _ => PyList x
  end.

(** [to_signed(arg, width)].  For [width <= 0] one of [2**width],
    [2**(width-1)] is a float and the first [&] with it raises [TypeError];
    with nothing to iterate over the empty list is returned. *)
Definition to_signed (arg : pyarg) (width : Z) : Py pyarg :=
  let vList := listify arg in
  if 0 <? width then
    let c_wrap := 2 ^ width in
    let c_mask := 2 ^ width - 1 in
    let c_sign := 2 ^ (width - 1) in
    ret (unlistify
           (map (fun value =>
                   let v := Z.land value c_mask in
                   if Z.land v c_sign =? 0 then v else v - c_wrap)
                vList))
  else
    match vList with
    | [] => ret (unlistify [])
    | _ :: _ => raise TypeError
    end.

(** ** The CommonBits container *)

Module CommonBits.

(** The object: [self.data] (absent until it is assigned) and
    [self.data_bin_len]. *)
Record t : Type := mk { data : option Z; data_bin_len : Z }.

(** What goes between the brackets: a slice [start:stop] or [start:stop:step]
    with integer bounds, or one integer. *)
Inductive index : Type :=
| Slice (start stop : Z) (step : option Z)
| Bit (i : Z).

(** Reading [self.data]. *)
Definition get_data (self : t) : Py Z :=
  match data self with
  | Some d => ret d
  | None => raise AttributeError
  end.

(** The builtin [bin]: binary digits, most significant first, after ["0b"],
    with a leading ["-"] for a negative number. *)
Fixpoint bin_digits (p : positive) (acc : string) : string :=
  match p with
  | xH => String "1" acc
  | xO q => bin_digits q (String "0" acc)
  | xI q => bin_digits q (String "1" acc)
  end.

Definition bin (value : Z) : string :=
  match value with
  | Z0 => "0b0"
  | Zpos p => "0b" ++ bin_digits p ""
  | Zneg p => "-0b" ++ bin_digits p ""
  end.

(** [get_bin_len(self, value)]: the length of [bin(value)] without its first
    two characters. *)
Definition get_bin_len (value : Z) : Z :=
  let value_bin_str := bin value in
  let value_bin := substring 2 (String.length value_bin_str - 2) value_bin_str in
  Z.of_nat (String.length value_bin).

(** [bitmask(self, nof_bits)]. *)
Definition bitmask (nof_bits : Z) : Py Z :=
  p <- pow2 nof_bits ;; ret (p - 1).

(** [__init__(self, data, bits=0)]. *)
Definition __init__ (data bits : Z) : Py t :=
  self_data <- (if 0 <=? data then ret (Some data)
                else
                  print ("CommonBits: Error: Input data = " ++ fmt_d data
                         ++ ". Only unsigned integers are supported, use to_unsigned(data, bits).") ;;
                  ret None) ;;
  if 0 <? bits then
    (if bits <? get_bin_len data then
       print ("CommonBits: Error: input data " ++ fmt_d data
              ++ " does not fit in passed number of bits (" ++ fmt_d bits ++ ")")
     else ret tt) ;;
    ret (mk self_data bits)
  else
    match self_data with
    | Some d => ret (mk self_data (get_bin_len d))
    | None => raise AttributeError
    end.

(** [check_slice(self, bitslice)]: the number of complaints. *)
Definition check_slice (self : t) (bitslice : index) : Py Z :=
  match bitslice with
  | Slice start stop step =>
      let result := 0 in
      result <- (match step with
                 | Some _ => print "CommonBits: Error: no step size allowed" ;;
                             ret (result + 1)
                 | None => ret result
                 end) ;;
      result <- (if start <? stop then
                   print "CommonBits: Error: slice range should be [ms:ls]" ;;
                   ret (result + 1)
                 else ret result) ;;
      result <- (if data_bin_len self <=? start then
                   print "CommonBits: Error: Passed MSbit does not exist in data" ;;
                   ret (result + 1)
                 else ret result) ;;
      ret result
  | Bit i =>
      if data_bin_len self <=? i then
        print "CommonBits: Error: Passed MSbit does not exist in data" ;; ret 1
      else ret 0
  end.

(** [__getitem__(self, bitslice)]; [None] is what falls off the end of the
    [else] branch.  The stray [print(bitmask)] is reached for neither kind
    of index. *)
Definition __getitem__ (self : t) (bitslice : index) : Py (option Z) :=
  c <- check_slice self bitslice ;;
  if c =? 0 then
    match bitslice with
    | Slice start stop _ =>
        bitmask <- bitmask (start - stop + 1) ;;
        d <- get_data self ;;
        s <- rshift d stop ;;
        ret (Some (Z.land s bitmask))
    | Bit i =>
        bitmask <- bitmask 1 ;;
        d <- get_data self ;;
        s <- rshift d i ;;
        ret (Some (Z.land s bitmask))
    end
  else
    print "CommonBits: Error: invalid slice range" ;; ret None.

(** [__setitem__(self, bitslice, value)], returning the object after the
    call.  In the slice branch a value below [-1] leaves the local [data]
    unassigned, and its next use raises. *)
Definition __setitem__ (self : t) (bitslice : index) (value : Z) : Py t :=
  c <- check_slice self bitslice ;;
  if c =? 0 then
    match bitslice with
    | Slice start stop _ =>
        bitmask <- bitmask (start - stop + 1) ;;
        data <- (if value =? -1 then ret (Some bitmask)
                 else if 0 <=? value then ret (Some value)
                 else
                   print ("CommonBits: Error: Input data = " ++ fmt_d value
                          ++ ". Only unsigned integers are supported, use to_unsigned(data, bits).") ;;
                   ret None) ;;
        data <- (match data with
                 | Some d => ret d
                 | None => raise UnboundLocalError
                 end) ;;
        if get_bin_len data <=? get_bin_len bitmask then
          d <- get_data self ;;
          m <- lshift bitmask stop ;;
          v <- lshift data stop ;;
          ret (mk (Some (Z.lor (Z.land d (Z.lnot m)) v)) (data_bin_len self))
        else
          print ("CommonBits: Error: passed value (" ++ fmt_d value
                 ++ ") does not fit in bits [" ++ fmt_d start ++ ".."
                 ++ fmt_d stop ++ "].") ;;
          ret self
    | Bit i =>
        bitmask <- bitmask 1 ;;
        let data := value in
        if get_bin_len data <=? get_bin_len bitmask then
          d <- get_data self ;;
          m <- lshift bitmask i ;;
          v <- lshift data i ;;
          ret (mk (Some (Z.lor (Z.land d (Z.lnot m)) v)) (data_bin_len self))
        else
          print ("CommonBits: Error: passed value (" ++ fmt_d value
                 ++ ") does not fit in bit [" ++ fmt_d i ++ "].") ;;
          ret self
    end
  else
    print "CommonBits: Error: invalid slice range" ;; ret self.

(** [__and__(self, other)]: the [&] of two containers. *)
Definition __and__ (self other : t) : Py t :=
  r <- __init__ 0 (data_bin_len self + data_bin_len other) ;;
  let ms_hi := data_bin_len r - 1 in
  let ms_lo := data_bin_len other in
  let ls_hi := data_bin_len other - 1 in
  let ls_lo := 0 in
  sd <- get_data self ;;
  r <- __setitem__ r (Slice ms_hi ms_lo None) sd ;;
  od <- get_data other ;;
  r <- __setitem__ r (Slice ls_hi ls_lo None) od ;;
  ret r.

(** [range(a, b)]. *)
Definition range (a b : Z) : list Z :=
  map (fun k => a + Z.of_nat k) (seq 0 (Z.to_nat (b - a))).

(** [for x in xs: body], where the body updates an accumulator. *)
Fixpoint for_each {A B} (xs : list A) (body : A -> B -> Py B) (acc : B) : Py B :=
  match xs with
  | [] => ret acc
  | x :: rest => acc' <- body x acc ;; for_each rest body acc'
  end.

(** [x == k] for what [__getitem__] returned: [None] equals no integer. *)
Definition eq_int (x : option Z) (k : Z) : bool :=
  match x with
  | Some v => v =? k
  | None => false
  end.

(** [hi(self)]. *)
Definition hi (self : t) : Py (list Z) :=
  sd <- get_data self ;;
  data_bits <- __init__ sd 0 ;;
  for_each (range 0 (data_bin_len self))
    (fun bit result =>
       b <- __getitem__ data_bits (Bit bit) ;;
       if eq_int b 1 then ret (result ++ [bit]) else ret result)
    [].

(** [lo(self)]. *)
Definition lo (self : t) : Py (list Z) :=
  sd <- get_data self ;;
  data_bits <- __init__ sd 0 ;;
  for_each (range 0 (data_bin_len self))
    (fun bit result =>
       b <- __getitem__ data_bits (Bit bit) ;;
       if eq_int b 0 then ret (result ++ [bit]) else ret result)
    [].

(** [__len__(self)]. *)
Definition __len__ (self : t) : Z := data_bin_len self.

(** [__repr__(self)]: [str] of the whole range, or of bit 0 when the width
    is 1 or less; [str(None)] is ["None"]. *)
Definition __repr__ (self : t) : Py string :=
  let bitslice := if 1 <? data_bin_len self
                  then Slice (data_bin_len self - 1) 0 None
                  else Bit 0 in
  r <- __getitem__ self bitslice ;;
  ret (match r with
       | Some v => fmt_d v
       | None => "None"
       end).

(** ['{:0%db}' % width] applied to [value]: the binary digits, with zeros
    put in front (after the sign) up to [width] characters. *)
Fixpoint zeros (n : nat) (s : string) : string :=
  match n with
  | O => s
  | S k => String "0" (zeros k s)
  end.

Definition format_0b (width value : Z) : string :=
  match value with
  | Z0 => zeros (Z.to_nat width - 1) "0"
  | Zpos p =>
      let digits := bin_digits p "" in
      zeros (Z.to_nat width - String.length digits) digits
  | Zneg p =>
      let digits := bin_digits p "" in
      String "-" (zeros (Z.to_nat width - 1 - String.length digits) digits)
  end.

(** [s[::-1]]. *)
Definition string_rev (s : string) : string :=
  string_of_list_ascii (rev (list_ascii_of_string s)).

(** [int(s, 2)] on strings over the characters 0, 1, + and -, the only ones
    [reversed] can build; [None] where [int] raises [ValueError]. *)
Fixpoint bin_value (s : string) (acc : Z) : option Z :=
  match s with
  | EmptyString => Some acc
  | String c rest =>
      if Ascii.eqb c "0" then bin_value rest (2 * acc)
      else if Ascii.eqb c "1" then bin_value rest (2 * acc + 1)
      else None
  end.

Definition int_base2 (s : string) : option Z :=
  match s with
  | EmptyString => None
  | String c rest =>
      if Ascii.eqb c "-" then
        match rest with
        | EmptyString => None
        | _ => option_map Z.opp (bin_value rest 0)
        end
      else if Ascii.eqb c "+" then
        match rest with
        | EmptyString => None
        | _ => bin_value rest 0
        end
      else bin_value s 0
  end.

(** [reversed(self)].  [self.data] is read before the format is applied; a
    negative width makes the format specifier invalid. *)
Definition reversed (self : t) : Py Z :=
  d <- get_data self ;;
  if data_bin_len self <? 0 then raise ValueError
  else
    match int_base2 (string_rev (format_0b (data_bin_len self) d)) with
    | Some res => ret res
    | None => raise ValueError
    end.

End CommonBits.

Import CommonBits.

(** ** Notions the properties are stated with *)

(** [(d & ~(mask << lo)) | (v << lo)] with [mask = 2**n - 1]. *)
Definition write_field (d lo n v : Z) : Z :=
  Z.lor (Z.land d (Z.lnot (Z.shiftl (2 ^ n - 1) lo))) (Z.shiftl v lo).

(** A container as the constructor leaves it when the value fits:
    [data] assigned, the width positive, the value inside the width. *)
Definition invariant (c : t) : Prop :=
  exists d, data c = Some d /\ 0 <= d < 2 ^ data_bin_len c.

Definition well_formed (c : t) : Prop :=
  0 < data_bin_len c /\ invariant c.

(** A constructor call whose value is non-negative and, when a width is
    passed, has no more binary digits than that width. *)
Definition fits (value bits : Z) : Prop :=
  0 <= value /\ (0 < bits -> get_bin_len value <= bits).

(** The containers a program can hold: built by the constructor from a value
    that fits its width, then carried through any reads, writes and
    concatenations that complete. *)
Inductive built : t -> Prop :=
| built_init (value bits : Z) (c : t) :
    fits value bits ->
    outcome (__init__ value bits) = Returned c -> built c
| built_getitem (c : t) (ix : index) (r : option Z) :
    built c -> outcome (__getitem__ c ix) = Returned r -> built c
| built_setitem (c c' : t) (ix : index) (value : Z) :
    built c -> outcome (__setitem__ c ix value) = Returned c' -> built c'
| built_and (a b c : t) :
    built a -> built b -> outcome (__and__ a b) = Returned c -> built c.

(** What the spec asks of [high_bit_positions()] and [low_bit_positions()]:
    the indices in [[0, w)] whose bit is 1, respectively 0, low to high. *)
Definition high_bit_positions_spec (d w : Z) : list Z :=
  filter (fun i => Z.testbit d i) (range 0 w).

Definition low_bit_positions_spec (d w : Z) : list Z :=
  filter (fun i => negb (Z.testbit d i)) (range 0 w).

(** The character of a binary digit, and the [n] low bits of [d] as
    characters, least significant first. *)
Definition digit (b : bool) : ascii := if b then "1"%char else "0"%char.

Definition bit_chars (d : Z) (n : nat) : list ascii :=
  map (fun j => digit (Z.testbit d (Z.of_nat j))) (seq 0 n).

(** ** Further functions of [common.py] *)

(** The word constants. *)
Definition c_word_w : Z := 32.
Definition c_longword_w : Z := 64.
Definition c_word_mod : Z := 2 ^ c_word_w.
Definition c_word_mask : Z := 2 ^ c_word_w - 1.
Definition c_word_sign : Z := 2 ^ (c_word_w - 1).
Definition c_longword_mod : Z := 2 ^ c_longword_w.
Definition c_longword_sign : Z := 2 ^ (c_longword_w - 1).

(** [greatest_common_div(A, B)]: the loop [while B != 0] with
    [rem = A % B; A = B; B = rem].  [|A % B| < |B|] makes it stop. *)
Equations? greatest_common_div (A B : Z) : Z by wf (Z.abs_nat B) lt :=
  greatest_common_div A B with Z.eq_dec B 0 := {
    | left _ => A
    | right _ => greatest_common_div B (A mod B) }.
Proof.
  pose proof (Z.mod_pos_bound A B). pose proof (Z.mod_neg_bound A B). lia.
Defined.

(** [signed32(v)] and [signed64(v)]. *)
Definition signed32 (v : Z) : Z :=
  if v <? c_word_sign then v else v - c_word_mod.

Definition signed64 (v : Z) : Z :=
  if v <? c_longword_sign then v else v - c_longword_mod.

(** [reverse_byte(byte)]: [*] binds tighter than [&], and [%] applies to the
    parenthesised product. *)
Definition reverse_byte (byte : Z) : Z :=
  (Z.land (byte * 0x0202020202) 0x010884422010) mod 1023.

(** [reverse_word(word)]. *)
Definition reverse_word (word : Z) : Z :=
  let B0 := Z.land word 0xFF in
  let B1 := Z.shiftr (Z.land word 0xFF00) 8 in
  let B2 := Z.shiftr (Z.land word 0xFF0000) 16 in
  let B3 := Z.shiftr (Z.land word 0xFF000000) 24 in
  Z.lor (Z.lor (Z.lor (Z.shiftl (reverse_byte B0) 24)
                      (Z.shiftl (reverse_byte B1) 16))
               (Z.shiftl (reverse_byte B2) 8))
        (reverse_byte B3).

(** [to_uword(arg)]. *)
Definition to_uword (arg : pyarg) : pyarg :=
  unlistify (map (fun value => Z.land value c_word_mask) (listify arg)).

(** [to_unsigned(arg, width)].  A negative [width] makes the mask a float,
    and the first [&] with it raises [TypeError]. *)
Definition to_unsigned (arg : pyarg) (width : Z) : Py pyarg :=
  let vList := listify arg in
  if width <? 0 then
    match vList with
    | [] => ret (unlistify [])
    | _ :: _ => raise TypeError
    end
  else
    let c_mask := 2 ^ width - 1 in
    ret (unlistify (map (fun value => Z.land value c_mask) vList)).

(** [reverse_bits(num, nofBits)]: the loop carries [(result, num)]. *)
Definition reverse_bits (num nofBits : Z) : Z :=
  fst (fold_left
         (fun (st : Z * Z) (_ : Z) =>
            let (result, num) := st in
            (Z.shiftl result 1 + Z.land num 1, Z.shiftr num 1))
         (range 0 nofBits) (0, num)).

(** [invert_msbit(num, nofBits)].  For [nofBits <= 0] one of the two powers
    is a float and the [&] or the [^] raises [TypeError]. *)
Definition invert_msbit (num nofBits : Z) : Py Z :=
  if nofBits <? 1 then raise TypeError
  else ret (Z.lxor (Z.land num (2 ^ nofBits - 1)) (2 ^ (nofBits - 1))).

(** ** Symbol views *)

Module CommonSymbols.

(** A [CommonSymbols] object: the inherited [CommonBits] state, [symbol_w]
    and [data_symbol_len].  [data_symbol_len] is only read by [__repr__] and
    [__len__]. *)
Record t : Type := mk { base : CommonBits.t; symbol_w : Z; data_symbol_len : Z }.

(** [symbolslice_to_bitslice(self, symbolslice)]: the bit slice is always
    built with step [None]. *)
Definition symbolslice_to_bitslice (self : t) (symbolslice : index) : index :=
  match symbolslice with
  | Slice MSS LSS _ =>
      Slice ((1 + MSS) * symbol_w self - 1) (LSS * symbol_w self) None
  | Bit s =>
      let MSb := (1 + s) * symbol_w self in
      let LSb := (1 + s) * symbol_w self - symbol_w self in
      Slice (MSb - 1) LSb None
  end.

(** [__getitem__(self, symbolslice)]. *)
Definition __getitem__ (self : t) (symbolslice : index) : Py (option Z) :=
  CommonBits.__getitem__ (base self) (symbolslice_to_bitslice self symbolslice).

(** [__setitem__(self, symbolslice, value)], returning the object after the
    call. *)
Definition __setitem__ (self : t) (symbolslice : index) (value : Z) : Py t :=
  b <- CommonBits.__setitem__ (base self)
         (symbolslice_to_bitslice self symbolslice) value ;;
  ret (mk b (symbol_w self) (data_symbol_len self)).

(** [__len__(self)]. *)
Definition __len__ (self : t) : Z := data_symbol_len self.

End CommonSymbols.

(** [str(x)] of what a read returned. *)
Definition py_str (x : option Z) : string :=
  match x with
  | Some v => fmt_d v
  | None => "None"
  end.

(** [ip_str(n)].  [CommonBytes(n, 4)] is [CommonSymbols.__init__(n, 8, 4)]:
    with [datasymbols > 0] it runs [CommonBits.__init__(n, 4*8)], and
    [ceil_div(32, 8)] is 4. *)
Definition ip_str (n : Z) : Py string :=
  b <- CommonBits.__init__ n (4 * 8) ;;
  let ip_bytes := CommonSymbols.mk b 8 4 in
  b3 <- CommonSymbols.__getitem__ ip_bytes (Bit 3) ;;
  b2 <- CommonSymbols.__getitem__ ip_bytes (Bit 2) ;;
  b1 <- CommonSymbols.__getitem__ ip_bytes (Bit 1) ;;
  b0 <- CommonSymbols.__getitem__ ip_bytes (Bit 0) ;;
  ret (py_str b3 ++ "." ++ py_str b2 ++ "." ++ py_str b1 ++ "." ++ py_str b0)%string.

(** ** List utilities *)

(** Where a slice bound [n] falls in a list of [len] elements: counted from
    the end when negative, and held inside [[0, len]]. *)
Definition slice_index (len n : Z) : nat :=
  Z.to_nat (if n <? 0 then Z.max 0 (n + len) else Z.min n len).

(** [l[n:]] and [l[:n]]. *)
Definition slice_from {A} (l : list A) (n : Z) : list A :=
  skipn (slice_index (Z.of_nat (List.length l)) n) l.

Definition slice_to {A} (l : list A) (n : Z) : list A :=
  firstn (slice_index (Z.of_nat (List.length l)) n) l.

(** [rotate_list(in_list, n)]. *)
Definition rotate_list {A} (in_list : list A) (n : Z) : list A :=
  slice_from in_list n ++ slice_to in_list n.

(** [==] on lists of integers. *)
Fixpoint list_eqb (a b : list Z) : bool :=
  match a, b with
  | [], [] => true
  | x :: a', y :: b' => (x =? y) && list_eqb a' b'
  | _, _ => false
  end.

(** [all_the_same(lst)]. *)
Definition all_the_same (lst : list Z) : bool :=
  list_eqb (slice_from lst 1) (slice_to lst (-1)).

(** [extend_list(aList, aLength, aElement=None)] and
    [pad(lst, length, padding=' ')]; a list times a count of zero or less is
    empty. *)
Definition extend_list {A} (aList : list A) (aLength : Z) (aElement : A) : list A :=
  let eList := aList in
  let listLen := Z.of_nat (List.length eList) in
  if listLen <? aLength
  then eList ++ repeat aElement (Z.to_nat (aLength - listLen))
  else eList.

Definition pad {A} (lst : list A) (length : Z) (padding : A) : list A :=
  lst ++ repeat padding (Z.to_nat (length - Z.of_nat (List.length lst))).

(** [unique(in_list)]: [seen] is the dict, kept as its items. *)
Definition unique (in_list : list Z) : list Z :=
  snd (fold_left
         (fun (st : list (Z * Z) * list Z) (item : Z) =>
            let (seen, result) := st in
            if existsb (fun kv => fst kv =? item) seen then st
            else ((item, 1) :: seen, result ++ [item]))
         in_list ([], [])).

(** [max_abs(data)]; [max] and [min] of an empty list raise [ValueError]. *)
Definition max_abs (data : list Z) : Py Z :=
  match data with
  | [] => raise ValueError
  | x :: rest =>
      ret (Z.max (fold_left Z.max rest x) (- fold_left Z.min rest x))
  end.

(** ** Bit-level facts used throughout *)

Section BitFacts.

Variables (a k : Z).
Hypothesis Hk : 0 <= k.

Lemma pow2_pos : 0 < 2 ^ k.
Proof. apply Z.pow_pos_nonneg; lia. Qed.

(** [a & 2**k] isolates bit [k]. *)
Lemma land_pow2 : Z.land a (2 ^ k) = if Z.testbit a k then 2 ^ k else 0.
Proof.
  apply Z.bits_inj'; intros n Hn.
  rewrite Z.land_spec, Z.pow2_bits_eqb by exact Hk.
  destruct (Z.eqb_spec k n) as [->|Hne].
  - rewrite andb_true_r. destruct (Z.testbit a n) eqn:E.
    + now rewrite Z.pow2_bits_true.
    + now rewrite Z.bits_0.
  - rewrite andb_false_r. destruct (Z.testbit a k).
    + now rewrite Z.pow2_bits_false.
    + now rewrite Z.bits_0.
Qed.

(** [a & (2**k - 1)] keeps the low [k] bits. *)
Lemma land_mask : Z.land a (2 ^ k - 1) = a mod 2 ^ k.
Proof. now rewrite <- Z.land_ones, Z.ones_equiv, Z.sub_1_r. Qed.

(** One more bit of the remainder. *)
Lemma mod_pow2_succ :
  a mod 2 ^ (k + 1) = a mod 2 ^ k + (if Z.testbit a k then 2 ^ k else 0).
Proof.
  pose proof pow2_pos as Hp.
  rewrite Z.pow_add_r, Z.pow_1_r by lia.
  rewrite Z.rem_mul_r by lia.
  rewrite <- Z.testbit_spec' by exact Hk.
  destruct (Z.testbit a k); simpl; lia.
Qed.

End BitFacts.

(** ** Wrapping *)

(** What [int_wrap] computes, bit [w-1] deciding the sign. *)
Lemma int_wrap_testbit (v w : Z) :
  0 < w ->
  int_wrap v w =
    v mod 2 ^ (w - 1) - (if Z.testbit v (w - 1) then 2 ^ (w - 1) else 0).
Proof.
  intros Hw. unfold int_wrap.
  destruct (Z.ltb_spec 0 w); [|lia].
  rewrite land_pow2, land_mask by lia.
  pose proof (pow2_pos (w - 1) ltac:(lia)).
  destruct (Z.testbit v (w - 1)).
  - destruct (Z.eqb_spec (2 ^ (w - 1)) 0); lia.
  - rewrite Z.eqb_refl. lia.
Qed.

(** The same value as the centred remainder modulo [2**w]. *)
Lemma int_wrap_mod (v w : Z) :
  0 < w ->
  int_wrap v w = (v + 2 ^ (w - 1)) mod 2 ^ w - 2 ^ (w - 1).
Proof.
  intros Hw. rewrite int_wrap_testbit by exact Hw.
  pose proof (pow2_pos (w - 1) ltac:(lia)) as Hp.
  pose proof (mod_pow2_succ v (w - 1) ltac:(lia)) as Hs.
  replace (w - 1 + 1) with w in Hs by lia.
  assert (Hw2 : 2 ^ w = 2 * 2 ^ (w - 1)).
  { replace w with (w - 1 + 1) at 1 by lia.
    rewrite Z.pow_add_r, Z.pow_1_r by lia. lia. }
  pose proof (Z.mod_pos_bound v (2 ^ (w - 1)) Hp) as Hm.
  pose proof (Z.div_mod v (2 ^ w) ltac:(lia)) as Hd.
  destruct (Z.testbit v (w - 1)).
  - enough ((v + 2 ^ (w - 1)) mod 2 ^ w = v mod 2 ^ (w - 1)) by lia.
    symmetry. apply Z.mod_unique with (q := v / 2 ^ w + 1); lia.
  - enough ((v + 2 ^ (w - 1)) mod 2 ^ w = v mod 2 ^ (w - 1) + 2 ^ (w - 1)) by lia.
    symmetry. apply Z.mod_unique with (q := v / 2 ^ w); lia.
Qed.

Lemma int_wrap_range (v w : Z) :
  0 < w -> - 2 ^ (w - 1) <= int_wrap v w <= 2 ^ (w - 1) - 1.
Proof.
  intros Hw. rewrite int_wrap_testbit by exact Hw.
  pose proof (pow2_pos (w - 1) ltac:(lia)) as Hp.
  pose proof (Z.mod_pos_bound v (2 ^ (w - 1)) Hp).
  destruct (Z.testbit v (w - 1)); lia.
Qed.

Lemma int_wrap_id (v w : Z) :
  0 < w -> - 2 ^ (w - 1) <= v <= 2 ^ (w - 1) - 1 -> int_wrap v w = v.
Proof.
  intros Hw Hv. rewrite int_wrap_mod by exact Hw.
  pose proof (pow2_pos (w - 1) ltac:(lia)) as Hp.
  assert (Hw2 : 2 ^ w = 2 * 2 ^ (w - 1)).
  { replace w with (w - 1 + 1) at 1 by lia.
    rewrite Z.pow_add_r, Z.pow_1_r by lia. lia. }
  rewrite Z.mod_small by lia. lia.
Qed.

(** ** Clipping *)

Lemma int_clip_id (v w : Z) :
  0 < w -> - 2 ^ (w - 1) <= v <= 2 ^ (w - 1) - 1 -> int_clip v w false = v.
Proof.
  intros Hw Hv. unfold int_clip.
  destruct (Z.ltb_spec 0 w); [|lia].
  destruct (Z.ltb_spec (2 ^ (w - 1) - 1) v); [lia|].
  destruct (Z.ltb_spec v (- 2 ^ (w - 1))); lia.
Qed.

(** C7: for [w > 0], [int_clip] returns the value inside [[low, high]],
    [high] above it and [low] below it, with [high = 2^(w-1) - 1] and
    [low = -2^(w-1)], or [-2^(w-1) + 1] when symmetric; for [w <= 0] it
    returns [0]. *)
Theorem int_clip_spec (value w : Z) (symmetric : bool) :
  (0 < w ->
   let high := 2 ^ (w - 1) - 1 in
   let low := if symmetric then - 2 ^ (w - 1) + 1 else - 2 ^ (w - 1) in
   (low <= value <= high -> int_clip value w symmetric = value) /\
   (value > high -> int_clip value w symmetric = high) /\
   (value < low -> int_clip value w symmetric = low)) /\
  (w <= 0 -> int_clip value w symmetric = 0).
Proof.
  split.
  - intros Hw high low. unfold int_clip.
    destruct (Z.ltb_spec 0 w); [|lia].
    pose proof (pow2_pos (w - 1) ltac:(lia)) as Hp.
    fold high. fold low.
    assert (low <= high) by (subst high low; destruct symmetric; lia).
    destruct (Z.ltb_spec high value), (Z.ltb_spec value low); repeat split; lia.
  - intros Hw. unfold int_clip. destruct (Z.ltb_spec 0 w); [lia|reflexivity].
Qed.

Lemma int_clip_spec_witness :
  int_clip 100 8 false = 100 /\ int_clip 200 8 true = 127 /\
  int_clip (-200) 8 true = -127 /\ int_clip (-200) 8 false = -128 /\
  int_clip 5 0 false = 0.
Proof.
  split; [|split; [|split; [|split]]].
  - apply (proj1 (int_clip_spec 100 8 false)); simpl; lia.
  - apply (proj1 (int_clip_spec 200 8 true)); simpl; lia.
  - apply (proj1 (int_clip_spec (-200) 8 true)); simpl; lia.
  - apply (proj1 (int_clip_spec (-200) 8 false)); simpl; lia.
  - apply (proj2 (int_clip_spec 5 0 false)); lia.
Defined.

(** ** [int_wrap] against [to_signed] *)

(** The loop body of [to_signed] at one value. *)
Lemma to_signed_body (v w : Z) :
  0 < w ->
  (let x := Z.land v (2 ^ w - 1) in
   if Z.land x (2 ^ (w - 1)) =? 0 then x else x - 2 ^ w) = int_wrap v w.
Proof.
  intros Hw. cbv zeta.
  rewrite int_wrap_testbit by exact Hw.
  rewrite land_mask, land_pow2 by lia.
  rewrite Z.mod_pow2_bits_low by lia.
  pose proof (pow2_pos (w - 1) ltac:(lia)) as Hp.
  pose proof (mod_pow2_succ v (w - 1) ltac:(lia)) as Hs.
  replace (w - 1 + 1) with w in Hs by lia.
  assert (Hw2 : 2 ^ w = 2 * 2 ^ (w - 1)).
  { replace w with (w - 1 + 1) at 1 by lia.
    rewrite Z.pow_add_r, Z.pow_1_r by lia. lia. }
  destruct (Z.testbit v (w - 1)).
  - destruct (Z.eqb_spec (2 ^ (w - 1)) 0); lia.
  - rewrite Z.eqb_refl. lia.
Qed.

(** C10: for [w > 0], [int_wrap(v, w)] and [to_signed(v, w)] return the same
    number, which is [v mod 2^w] taken down by [2^w] when its top bit is set;
    so [int_wrap] is the identity on [[-2^(w-1), 2^(w-1) - 1]]. *)
Theorem int_wrap_to_signed (v w : Z) :
  0 < w ->
  to_signed (Scalar v) w = ret (Scalar (int_wrap v w)) /\
  int_wrap v w =
    (let m := v mod 2 ^ w in if 2 ^ (w - 1) <=? m then m - 2 ^ w else m) /\
  (- 2 ^ (w - 1) <= v <= 2 ^ (w - 1) - 1 -> int_wrap v w = v).
Proof.
  intros Hw. split; [|split].
  - unfold to_signed. destruct (Z.ltb_spec 0 w); [|lia].
    cbn [listify map unlistify].
    pose proof (to_signed_body v w Hw) as Hb. cbv zeta in Hb.
    now rewrite Hb.
  - cbv zeta. rewrite int_wrap_testbit by exact Hw.
    pose proof (pow2_pos (w - 1) ltac:(lia)) as Hp.
    pose proof (mod_pow2_succ v (w - 1) ltac:(lia)) as Hs.
    replace (w - 1 + 1) with w in Hs by lia.
    assert (Hw2 : 2 ^ w = 2 * 2 ^ (w - 1)).
    { replace w with (w - 1 + 1) at 1 by lia.
      rewrite Z.pow_add_r, Z.pow_1_r by lia. lia. }
    pose proof (Z.mod_pos_bound v (2 ^ (w - 1)) Hp) as Hm.
    destruct (Z.testbit v (w - 1));
      destruct (Z.leb_spec (2 ^ (w - 1)) (v mod 2 ^ w)); lia.
  - apply int_wrap_id; exact Hw.
Qed.

Lemma int_wrap_to_signed_witness :
  to_signed (Scalar 200) 8 = ret (Scalar (int_wrap 200 8)) /\
  int_wrap (-5) 8 = -5.
Proof.
  split.
  - apply (proj1 (int_wrap_to_signed 200 8 ltac:(lia))).
  - apply (proj2 (proj2 (int_wrap_to_signed (-5) 8 ltac:(lia)))). simpl. lia.
Defined.

(** ** Requantization *)

(** With equal widths, no LSB removal, clipping and no gain, the pipeline
    is the input wrap: the later stages see a value that is already in
    range. *)
Lemma int_requantize_same_width (v w : Z) :
  0 < w -> int_requantize v w w 0 false true 0 = ret (int_wrap v w).
Proof.
  intros Hw. unfold int_requantize.
  pose proof (int_wrap_range v w Hw) as Hr.
  replace (int_truncate (int_wrap v w) 0 "") with (int_wrap v w) by reflexivity.
  unfold bind at 1. cbn [outcome printed ret].
  rewrite int_clip_id by lia.
  unfold lshift. cbn [Z.ltb Z.compare]. rewrite Z.shiftl_0_r.
  unfold bind. cbn [outcome printed ret app].
  now rewrite int_wrap_id by lia.
Qed.

(** C1, the claim as written fails: the input stage wraps [200] to [-56]
    before the clip sees it, where [int_clip(200, 8)] is [127]. *)
Lemma int_requantize_not_clip :
  int_requantize 200 8 8 0 false true 0 = ret (-56) /\
  int_clip 200 8 false = 127 /\
  int_requantize 200 8 8 0 false true 0 <> ret (int_clip 200 8 false).
Proof.
  split; [reflexivity|]. split; [reflexivity|]. discriminate.
Qed.

(** C1, amended: for [w > 0], [requantize(v, w, w, 0, false, true, 0)]
    equals [wrap(v, w)]; it equals [clip(v, w)] (and [v] itself) when [v]
    lies in [[-2^(w-1), 2^(w-1) - 1]]. *)
Theorem int_requantize_same_width_clip (v w : Z) :
  0 < w ->
  int_requantize v w w 0 false true 0 = ret (int_wrap v w) /\
  (- 2 ^ (w - 1) <= v <= 2 ^ (w - 1) - 1 ->
   int_requantize v w w 0 false true 0 = ret (int_clip v w false) /\
   int_clip v w false = v).
Proof.
  intros Hw. split.
  - now apply int_requantize_same_width.
  - intros Hv. rewrite int_requantize_same_width by exact Hw.
    rewrite int_wrap_id, int_clip_id by assumption. now split.
Qed.

Lemma int_requantize_same_width_clip_witness :
  int_requantize 200 8 8 0 false true 0 = ret (int_wrap 200 8) /\
  int_requantize (-100) 8 8 0 false true 0 = ret (int_clip (-100) 8 false).
Proof.
  split.
  - apply (proj1 (int_requantize_same_width_clip 200 8 ltac:(lia))).
  - apply (proj2 (int_requantize_same_width_clip (-100) 8 ltac:(lia))).
    simpl. lia.
Defined.

(** ** Rounding *)

Lemma mod2_is_odd (x : Z) : (x mod 2 =? 1) = Z.odd x.
Proof. rewrite Zmod_odd. now destruct (Z.odd x). Qed.

(** Running a call that prints nothing and returns, then going on. *)
Lemma bind_ret {A B} (a : A) (f : A -> Py B) : bind (ret a) f = f a.
Proof. unfold bind, ret. cbn. now destruct (f a). Qed.

Lemma bind_print {B} (line : string) (k : Py B) :
  bind (print line) (fun _ => k) =
    mkPy (match outcome k with
          | Returned b => Returned b
          | Raised e => Raised e
          | NonInteger => NonInteger
          end) (line :: printed k).
Proof. unfold bind, print. cbn. now destruct (outcome k). Qed.

(** Without clip and with [r > 0], [int_round] is its dispatch on the
    direction token. *)
Lemma int_round_no_clip (inp r : Z) (direction : string) (outp_w : Z) :
  0 < r ->
  int_round inp r direction false outp_w =
    bind (if String.eqb direction "HALF_UP" then
            ret ((inp + 2 ^ (r - 1)) / 2 ^ r)
          else if String.eqb direction "HALF_AWAY" then
            if 0 <=? inp then ret ((inp + 2 ^ (r - 1)) / 2 ^ r)
            else ret ((inp + (2 ^ (r - 1) - 1)) / 2 ^ r)
          else if String.eqb direction "HALF_EVEN" then
            if inp mod 2 ^ r =? 2 ^ (r - 1) then
              if (inp + 2 ^ (r - 1)) / 2 ^ r mod 2 =? 1
              then ret ((inp + 2 ^ (r - 1)) / 2 ^ r - 1)
              else ret ((inp + 2 ^ (r - 1)) / 2 ^ r)
            else ret ((inp + 2 ^ (r - 1)) / 2 ^ r)
          else
            bind (print "int_round: Error: unsupported round direction")
                 (fun _ => ret inp))
         (fun outp => ret outp).
Proof.
  intros Hr. unfold int_round.
  destruct (Z.ltb_spec 0 r); [reflexivity|lia].
Qed.

Section RoundingPolicies.

Variables (value r outp_w : Z).
Hypothesis Hr : 0 < r.

Lemma int_round_half_up :
  int_round value r "HALF_UP" false outp_w = ret ((value + 2 ^ (r - 1)) / 2 ^ r).
Proof.
  rewrite int_round_no_clip by exact Hr.
  cbn [String.eqb Ascii.eqb Bool.eqb andb]. now rewrite bind_ret.
Qed.

Lemma int_round_half_away :
  int_round value r "HALF_AWAY" false outp_w =
    ret (if 0 <=? value then (value + 2 ^ (r - 1)) / 2 ^ r
         else (value + 2 ^ (r - 1) - 1) / 2 ^ r).
Proof.
  rewrite int_round_no_clip by exact Hr.
  cbn [String.eqb Ascii.eqb Bool.eqb andb].
  replace (value + 2 ^ (r - 1) - 1) with (value + (2 ^ (r - 1) - 1)) by lia.
  destruct (0 <=? value); now rewrite bind_ret.
Qed.

Lemma int_round_half_even :
  int_round value r "HALF_EVEN" false outp_w =
    ret (let up := (value + 2 ^ (r - 1)) / 2 ^ r in
         if (value mod 2 ^ r =? 2 ^ (r - 1)) && Z.odd up then up - 1 else up).
Proof.
  rewrite int_round_no_clip by exact Hr.
  cbn [String.eqb Ascii.eqb Bool.eqb andb]. cbv zeta.
  rewrite mod2_is_odd.
  destruct (value mod 2 ^ r =? 2 ^ (r - 1)); cbn [andb];
    [destruct (Z.odd _)|]; now rewrite bind_ret.
Qed.

End RoundingPolicies.

(** C2: with [r > 0] (and no clip), HALF_UP gives
    [floor((value + 2^(r-1)) / 2^r)]; HALF_AWAY gives the same for
    [value >= 0] and [floor((value + 2^(r-1) - 1) / 2^r)] for [value < 0];
    HALF_EVEN gives the HALF_UP result less 1 when
    [value mod 2^r = 2^(r-1)] and that result is odd.  With [r <= 0] the
    value comes back unchanged, whatever the direction and the clip flag.
    The six literal cases follow. *)
Theorem int_round_spec (value r outp_w : Z) :
  (0 < r ->
   let up := (value + 2 ^ (r - 1)) / 2 ^ r in
   int_round value r "HALF_UP" false outp_w = ret up /\
   int_round value r "HALF_AWAY" false outp_w =
     ret (if 0 <=? value then up else (value + 2 ^ (r - 1) - 1) / 2 ^ r) /\
   int_round value r "HALF_EVEN" false outp_w =
     ret (if (value mod 2 ^ r =? 2 ^ (r - 1)) && Z.odd up then up - 1 else up)) /\
  (r <= 0 ->
   forall direction clip, int_round value r direction clip outp_w = ret value) /\
  (int_round 1 1 "HALF_UP" false 0 = ret 1 /\
   int_round (-1) 1 "HALF_UP" false 0 = ret 0 /\
   int_round (-1) 1 "HALF_AWAY" false 0 = ret (-1) /\
   int_round 1 1 "HALF_EVEN" false 0 = ret 0 /\
   int_round 3 1 "HALF_EVEN" false 0 = ret 2 /\
   int_round (-3) 1 "HALF_EVEN" false 0 = ret (-2)).
Proof.
  split; [|split].
  - intros Hr up. subst up. split; [|split].
    + now apply int_round_half_up.
    + now apply int_round_half_away.
    + now apply int_round_half_even.
  - intros Hr direction clip. unfold int_round.
    destruct (Z.ltb_spec 0 r); [lia|reflexivity].
  - repeat split.
Qed.

Lemma int_round_spec_witness :
  int_round 5 1 "HALF_UP" false 0 = ret ((5 + 2 ^ (1 - 1)) / 2 ^ 1) /\
  int_round 7 0 "HALF_EVEN" false 0 = ret 7.
Proof.
  split.
  - apply (proj1 (proj1 (int_round_spec 5 1 0) ltac:(lia))).
  - apply (proj1 (proj2 (int_round_spec 7 0 0)) ltac:(lia) "HALF_EVEN" false).
Defined.

(** Each of the three policies rounds to a nearest multiple of [2^r]: the
    result is within half a step of the input. *)
Lemma int_round_nearest (value r outp_w : Z) (direction : string) :
  0 < r ->
  direction = "HALF_UP" \/ direction = "HALF_AWAY" \/ direction = "HALF_EVEN" ->
  exists q,
    int_round value r direction false outp_w = ret q /\
    - 2 ^ (r - 1) <= value - q * 2 ^ r <= 2 ^ (r - 1).
Proof.
  intros Hr Hdir.
  pose proof (pow2_pos (r - 1) ltac:(lia)) as Hp.
  assert (H2 : 2 ^ r = 2 * 2 ^ (r - 1)).
  { replace r with (r - 1 + 1) at 1 by lia.
    rewrite Z.pow_add_r, Z.pow_1_r by lia. lia. }
  pose proof (int_round_half_up value r outp_w Hr) as Hup.
  pose proof (int_round_half_away value r outp_w Hr) as Haway.
  pose proof (int_round_half_even value r outp_w Hr) as Heven.
  cbv zeta in Heven.
  set (h := 2 ^ (r - 1)) in *.
  pose proof (Z.div_mod (value + h) (2 ^ r) ltac:(lia)) as Hdm.
  pose proof (Z.mod_pos_bound (value + h) (2 ^ r) ltac:(lia)) as Hmb.
  destruct Hdir as [-> | [-> | ->]].
  - eexists. split; [exact Hup|]. lia.
  - eexists. split; [exact Haway|].
    destruct (0 <=? value); [lia|].
    pose proof (Z.div_mod (value + h - 1) (2 ^ r) ltac:(lia)).
    pose proof (Z.mod_pos_bound (value + h - 1) (2 ^ r) ltac:(lia)). lia.
  - eexists. split; [exact Heven|].
    destruct (Z.eqb_spec (value mod 2 ^ r) h) as [Hhalf|_]; cbn [andb]; [|lia].
    destruct (Z.odd _); [|lia].
    pose proof (Z.div_mod value (2 ^ r) ltac:(lia)) as Hv.
    assert (Hq : (value + h) / 2 ^ r = value / 2 ^ r + 1).
    { symmetry. apply Z.div_unique with (r := 0); lia. }
    rewrite Hq. lia.
Qed.

(** C6, the claim as written fails: an unknown direction token is reported on
    standard output and the call returns its input. *)
Lemma int_round_unsupported_returns :
  int_round 5 1 "HALF_DOWN" false 0 =
    mkPy (Returned 5) ["int_round: Error: unsupported round direction"].
Proof. reflexivity. Qed.

(** C6, amended: for [r > 0] and a direction token outside
    {HALF_UP, HALF_AWAY, HALF_EVEN}, [int_round] prints
    "int_round: Error: unsupported round direction" and returns the input
    value: unchanged without clip, and held to at most
    [2^(outp_w-1) - 1] with clip and [outp_w > 0]. *)
Theorem int_round_unsupported (value r : Z) (direction : string) (outp_w : Z) :
  0 < r ->
  direction <> "HALF_UP" -> direction <> "HALF_AWAY" -> direction <> "HALF_EVEN" ->
  int_round value r direction false outp_w =
    mkPy (Returned value) ["int_round: Error: unsupported round direction"] /\
  (0 < outp_w ->
   int_round value r direction true outp_w =
     mkPy (Returned (Z.min value (2 ^ (outp_w - 1) - 1)))
          ["int_round: Error: unsupported round direction"]).
Proof.
  intros Hr Hu Ha He.
  apply String.eqb_neq in Hu, Ha, He.
  unfold int_round. destruct (Z.ltb_spec 0 r); [|lia].
  rewrite Hu, Ha, He. split.
  - reflexivity.
  - intros Hw. unfold pow2. destruct (Z.ltb_spec (outp_w - 1) 0); [lia|].
    rewrite bind_print. cbn [ret outcome printed].
    unfold bind at 1. cbn [outcome printed].
    rewrite bind_ret.
    destruct (Z.ltb_spec (2 ^ (outp_w - 1) - 1) value).
    + rewrite Z.min_r by lia. reflexivity.
    + rewrite Z.min_l by lia. reflexivity.
Qed.

Lemma int_round_unsupported_witness :
  int_round 5 3 "" false 0 =
    mkPy (Returned 5) ["int_round: Error: unsupported round direction"].
Proof.
  apply (proj1 (int_round_unsupported 5 3 "" 0 ltac:(lia)
                  ltac:(discriminate) ltac:(discriminate) ltac:(discriminate))).
Defined.

(** ** Bit lengths *)

Lemma length_bin_digits (p : positive) (acc : string) :
  String.length (bin_digits p acc) = (Pos.size_nat p + String.length acc)%nat.
Proof.
  revert acc. induction p as [q IH|q IH|]; intros acc; cbn [bin_digits Pos.size_nat].
  - rewrite IH. cbn [String.length]. lia.
  - rewrite IH. cbn [String.length]. lia.
  - reflexivity.
Qed.

Lemma substring_all (s : string) : substring 0 (String.length s) s = s.
Proof. induction s as [|c s IH]; cbn; [reflexivity|now rewrite IH]. Qed.

Lemma get_bin_len_0 : get_bin_len 0 = 1.
Proof. reflexivity. Qed.

Lemma get_bin_len_pos (p : positive) :
  get_bin_len (Zpos p) = Z.of_nat (Pos.size_nat p).
Proof.
  unfold get_bin_len, bin.
  change ("0b" ++ bin_digits p "")%string
    with (String "0" (String "b" (bin_digits p ""))).
  cbn [String.length substring Nat.sub].
  rewrite Nat.sub_0_r, substring_all, length_bin_digits.
  cbn [String.length]. f_equal. lia.
Qed.

(** For a negative number the cut leaves the ["b"] in: one more than the
    digits. *)
Lemma get_bin_len_neg (p : positive) :
  get_bin_len (Zneg p) = Z.of_nat (Pos.size_nat p) + 1.
Proof.
  unfold get_bin_len, bin.
  change ("-0b" ++ bin_digits p "")%string
    with (String "-" (String "0" (String "b" (bin_digits p "")))).
  cbn [String.length substring Nat.sub].
  rewrite substring_all, length_bin_digits. cbn [String.length]. lia.
Qed.

Lemma size_nat_pos (p : positive) : (1 <= Pos.size_nat p)%nat.
Proof. destruct p; cbn; lia. Qed.

Lemma size_nat_bounds (p : positive) :
  2 ^ Z.of_nat (Pos.size_nat p) <= 2 * Zpos p < 2 * 2 ^ Z.of_nat (Pos.size_nat p).
Proof.
  induction p as [q IH|q IH|]; cbn [Pos.size_nat].
  - rewrite Nat2Z.inj_succ, Z.pow_succ_r by lia. lia.
  - rewrite Nat2Z.inj_succ, Z.pow_succ_r by lia. lia.
  - cbn. lia.
Qed.

Lemma get_bin_len_ge_1 (v : Z) : 1 <= get_bin_len v.
Proof.
  destruct v as [|p|p].
  - rewrite get_bin_len_0. lia.
  - rewrite get_bin_len_pos. pose proof (size_nat_pos p). lia.
  - rewrite get_bin_len_neg. lia.
Qed.

(** A non-negative value has at most [n] binary digits exactly when it is
    below [2**n]. *)
Lemma get_bin_len_le (v n : Z) :
  0 <= v -> 1 <= n -> (get_bin_len v <= n <-> v < 2 ^ n).
Proof.
  intros Hv Hn. destruct v as [|p|p]; [| |lia].
  - rewrite get_bin_len_0. pose proof (pow2_pos n ltac:(lia)). lia.
  - rewrite get_bin_len_pos.
    pose proof (size_nat_bounds p) as [Hlo Hhi].
    set (s := Z.of_nat (Pos.size_nat p)) in *.
    split; intros H.
    + pose proof (Z.pow_le_mono_r 2 s n ltac:(lia) H). lia.
    + assert (Hlt : 2 ^ s < 2 ^ (n + 1)).
      { rewrite Z.pow_add_r, Z.pow_1_r by lia. lia. }
      apply Z.pow_lt_mono_r_iff in Hlt; lia.
Qed.

Lemma get_bin_len_neg_gt_1 (v : Z) : v < 0 -> 1 < get_bin_len v.
Proof.
  destruct v as [|p|p]; try lia. intros _.
  rewrite get_bin_len_neg. pose proof (size_nat_pos p). lia.
Qed.

(** The mask of [n] ones has [n] digits. *)
Lemma get_bin_len_mask (n : Z) : 1 <= n -> get_bin_len (2 ^ n - 1) = n.
Proof.
  intros Hn.
  pose proof (pow2_pos n ltac:(lia)) as Hp.
  assert (Hle : get_bin_len (2 ^ n - 1) <= n)
    by (apply get_bin_len_le; lia).
  destruct (Z.eq_dec n 1) as [->|Hne].
  - reflexivity.
  - destruct (Z.le_gt_cases (get_bin_len (2 ^ n - 1)) (n - 1)) as [Hs|Hs]; [|lia].
    apply get_bin_len_le in Hs; try lia.
    replace n with (n - 1 + 1) in Hs at 1 by lia.
    rewrite Z.pow_add_r, Z.pow_1_r in Hs by lia.
    pose proof (pow2_pos (n - 1) ltac:(lia)). lia.
Qed.

(** ** Writing a field into an integer *)

Lemma testbit_small (x n i : Z) :
  0 <= x < 2 ^ n -> n <= i -> Z.testbit x i = false.
Proof.
  intros Hx Hi.
  destruct (Z.eq_dec x 0) as [->|Hne]; [apply Z.bits_0|].
  apply Z.bits_above_log2; [lia|].
  assert (Z.log2 x < n) by (apply Z.log2_lt_pow2; lia). lia.
Qed.

Lemma lt_pow2_of_bits (x w : Z) :
  0 <= x -> 0 <= w -> (forall i, w <= i -> Z.testbit x i = false) -> x < 2 ^ w.
Proof.
  intros Hx Hw Hbits.
  assert (Heq : x = x mod 2 ^ w).
  { apply Z.bits_inj'; intros i Hi.
    destruct (Z.lt_ge_cases i w).
    - now rewrite Z.mod_pow2_bits_low.
    - rewrite Z.mod_pow2_bits_high by lia. now apply Hbits. }
  rewrite Heq. apply Z.mod_pos_bound. now apply pow2_pos.
Qed.

Section WriteField.

Variables (d lo n v : Z).
Hypothesis Hlo : 0 <= lo.
Hypothesis Hn : 0 <= n.
Hypothesis Hv : 0 <= v < 2 ^ n.

Lemma write_field_testbit (i : Z) :
  0 <= i ->
  Z.testbit (write_field d lo n v) i =
    if (lo <=? i) && (i <? lo + n) then Z.testbit v (i - lo) else Z.testbit d i.
Proof.
  intros Hi. unfold write_field.
  rewrite Z.lor_spec, Z.land_spec, Z.lnot_spec, !Z.shiftl_spec by lia.
  replace (2 ^ n - 1) with (Z.ones n) by (rewrite Z.ones_equiv; lia).
  rewrite Z.testbit_ones by lia.
  destruct (Z.leb_spec lo i), (Z.ltb_spec i (lo + n)); cbn [andb];
    destruct (Z.leb_spec 0 (i - lo)), (Z.ltb_spec (i - lo) n);
    cbn [andb negb]; try lia.
  - now rewrite andb_false_r.
  - rewrite andb_true_r, (testbit_small v n (i - lo)) by lia.
    now rewrite orb_false_r.
  - rewrite andb_true_r, Z.testbit_neg_r with (n := i - lo) by lia.
    now rewrite orb_false_r.
Qed.

(** Reading the field back: [(d' >> lo) & mask]. *)
Lemma read_write_field :
  Z.land (Z.shiftr (write_field d lo n v) lo) (2 ^ n - 1) = v.
Proof.
  apply Z.bits_inj'; intros i Hi.
  replace (2 ^ n - 1) with (Z.ones n) by (rewrite Z.ones_equiv; lia).
  rewrite Z.land_spec, Z.shiftr_spec, Z.testbit_ones_nonneg by lia.
  rewrite write_field_testbit by lia.
  replace (i + lo - lo) with i by lia.
  destruct (Z.leb_spec lo (i + lo)), (Z.ltb_spec (i + lo) (lo + n)),
    (Z.ltb_spec i n); cbn [andb]; try lia.
  - now rewrite andb_true_r.
  - rewrite andb_false_r. symmetry. apply (testbit_small v n i); lia.
Qed.

(** The write stays inside a container that holds the field. *)
Lemma write_field_bound (w : Z) :
  0 <= d < 2 ^ w -> lo + n <= w -> 0 <= write_field d lo n v < 2 ^ w.
Proof.
  intros Hd Hw. split.
  - unfold write_field. apply Z.lor_nonneg. split.
    + apply Z.land_nonneg. left. lia.
    + apply Z.shiftl_nonneg. lia.
  - apply lt_pow2_of_bits.
    + unfold write_field. apply Z.lor_nonneg. split.
      * apply Z.land_nonneg. left. lia.
      * apply Z.shiftl_nonneg. lia.
    + lia.
    + intros i Hi. rewrite write_field_testbit by lia.
      destruct (Z.leb_spec lo i), (Z.ltb_spec i (lo + n)); cbn [andb]; try lia;
        apply (testbit_small d w i); lia.
Qed.

End WriteField.

(** ** The container's operations on well-formed input *)

Ltac py_simpl :=
  repeat (rewrite bind_ret || cbn [ret outcome printed]).

Lemma ltb_false (a b : Z) : b <= a -> (a <? b) = false.
Proof. intros. now apply Z.ltb_ge. Qed.

Lemma leb_false (a b : Z) : b < a -> (a <=? b) = false.
Proof. intros. now apply Z.leb_gt. Qed.

Lemma leb_true (a b : Z) : a <= b -> (a <=? b) = true.
Proof. intros. now apply Z.leb_le. Qed.

Lemma ltb_true (a b : Z) : a < b -> (a <? b) = true.
Proof. intros. now apply Z.ltb_lt. Qed.

Lemma bitmask_ok (n : Z) : 0 <= n -> bitmask n = ret (2 ^ n - 1).
Proof.
  intros Hn. unfold bitmask, pow2. rewrite ltb_false by lia. now py_simpl.
Qed.

Lemma get_data_ok (c : t) (d : Z) : data c = Some d -> get_data c = ret d.
Proof. intros H. unfold get_data. now rewrite H. Qed.

Lemma check_slice_ok (c : t) (h l : Z) :
  l <= h < data_bin_len c -> check_slice c (Slice h l None) = ret 0.
Proof.
  intros H. unfold check_slice. py_simpl.
  rewrite ltb_false by lia. py_simpl.
  rewrite leb_false by lia. now py_simpl.
Qed.

Lemma check_bit_ok (c : t) (i : Z) :
  i < data_bin_len c -> check_slice c (Bit i) = ret 0.
Proof. intros H. unfold check_slice. now rewrite leb_false by lia. Qed.

Section RangeAccess.

Variables (c : t) (d h l : Z).
Hypothesis Hdata : data c = Some d.
Hypothesis Hrange : 0 <= l /\ l <= h < data_bin_len c.

(** A range read returns the field [(d >> l) & (2**(h-l+1) - 1)]. *)
Lemma getitem_slice :
  __getitem__ c (Slice h l None) =
    ret (Some (Z.land (Z.shiftr d l) (2 ^ (h - l + 1) - 1))).
Proof.
  unfold __getitem__.
  rewrite check_slice_ok by lia. py_simpl. cbn [Z.eqb].
  rewrite bitmask_ok by lia. py_simpl.
  rewrite (get_data_ok c d Hdata). py_simpl.
  unfold rshift. rewrite ltb_false by lia. now py_simpl.
Qed.

(** A range write of a value that fits stores it with [write_field]. *)
Lemma setitem_slice (x : Z) :
  0 <= x < 2 ^ (h - l + 1) ->
  __setitem__ c (Slice h l None) x =
    ret (mk (Some (write_field d l (h - l + 1) x)) (data_bin_len c)).
Proof.
  intros Hx. unfold __setitem__.
  rewrite check_slice_ok by lia. py_simpl. cbn [Z.eqb].
  rewrite bitmask_ok by lia. py_simpl.
  replace (x =? -1) with false by (symmetry; apply Z.eqb_neq; lia).
  rewrite leb_true by lia. py_simpl.
  rewrite get_bin_len_mask by lia.
  rewrite leb_true by (apply get_bin_len_le; lia).
  rewrite (get_data_ok c d Hdata). py_simpl.
  unfold lshift. rewrite ltb_false by lia. now py_simpl.
Qed.

End RangeAccess.

(** An indexed read returns bit [i]. *)
Lemma getitem_bit (c : t) (d i : Z) :
  data c = Some d -> 0 <= i < data_bin_len c ->
  __getitem__ c (Bit i) = ret (Some (Z.b2z (Z.testbit d i))).
Proof.
  intros Hdata Hi. unfold __getitem__.
  rewrite check_bit_ok by lia. py_simpl. cbn [Z.eqb].
  rewrite bitmask_ok by lia. py_simpl.
  rewrite (get_data_ok c d Hdata). py_simpl.
  unfold rshift. rewrite ltb_false by lia. py_simpl.
  do 2 f_equal. change (2 ^ 1 - 1) with (Z.ones 1).
  rewrite Z.land_ones, Z.shiftr_div_pow2, Z.pow_1_r by lia.
  symmetry. now apply Z.testbit_spec'.
Qed.

(** C4: in a container of width [w] holding [0 <= d < 2^w], after a range
    write of [x] (with [0 <= x < 2^(h-l+1)]) to [[h:l]], [w > h >= l >= 0],
    the range read of [[h:l]] returns [x], and every bit outside [[h:l]]
    is what it was: as a bit of the stored integer, and as the indexed read
    of the container returns it. *)
Theorem setitem_getitem_roundtrip (c : t) (d h l x : Z) :
  data c = Some d ->
  0 <= d < 2 ^ data_bin_len c ->
  0 <= l /\ l <= h < data_bin_len c ->
  0 <= x < 2 ^ (h - l + 1) ->
  exists c' d',
    __setitem__ c (Slice h l None) x = ret c' /\
    data c' = Some d' /\
    data_bin_len c' = data_bin_len c /\
    __getitem__ c' (Slice h l None) = ret (Some x) /\
    (forall i, 0 <= i -> i < l \/ h < i -> Z.testbit d' i = Z.testbit d i) /\
    (forall i, 0 <= i < data_bin_len c -> i < l \/ h < i ->
               __getitem__ c' (Bit i) = __getitem__ c (Bit i)).
Proof.
  intros Hdata Hd Hrange Hx.
  exists (mk (Some (write_field d l (h - l + 1) x)) (data_bin_len c)),
    (write_field d l (h - l + 1) x).
  assert (Hframe : forall i, 0 <= i -> i < l \/ h < i ->
            Z.testbit (write_field d l (h - l + 1) x) i = Z.testbit d i).
  { intros i Hi Hout. rewrite write_field_testbit by lia.
    destruct (Z.leb_spec l i), (Z.ltb_spec i (l + (h - l + 1)));
      cbn [andb]; try reflexivity; lia. }
  split; [now apply setitem_slice|].
  split; [reflexivity|]. split; [reflexivity|]. split; [|split].
  - rewrite getitem_slice with (d := write_field d l (h - l + 1) x)
      by (cbn [data data_bin_len]; first [reflexivity|lia]).
    now rewrite read_write_field by lia.
  - exact Hframe.
  - intros i Hi Hout.
    rewrite getitem_bit with (d := write_field d l (h - l + 1) x)
      by (cbn [data data_bin_len]; first [reflexivity|lia]).
    rewrite getitem_bit with (d := d) by (first [exact Hdata|lia]).
    now rewrite Hframe by lia.
Qed.

Lemma setitem_getitem_roundtrip_witness :
  exists c' d',
    __setitem__ (mk (Some 0xdeadbeef) 32) (Slice 15 0 None) 0xbabe = ret c' /\
    data c' = Some d' /\
    data_bin_len c' = 32 /\
    __getitem__ c' (Slice 15 0 None) = ret (Some 0xbabe) /\
    (forall i, 0 <= i -> i < 0 \/ 15 < i ->
               Z.testbit d' i = Z.testbit 0xdeadbeef i) /\
    (forall i, 0 <= i < 32 -> i < 0 \/ 15 < i ->
               __getitem__ c' (Bit i) = __getitem__ (mk (Some 0xdeadbeef) 32) (Bit i)).
Proof.
  apply (setitem_getitem_roundtrip (mk (Some 0xdeadbeef) 32) 0xdeadbeef 15 0 0xbabe).
  - reflexivity.
  - cbn [data_bin_len]. lia.
  - cbn [data_bin_len]. lia.
  - simpl. lia.
Defined.

(** ** Construction *)

Lemma init_explicit (value bits : Z) :
  0 <= value -> 0 < bits -> get_bin_len value <= bits ->
  __init__ value bits = ret (mk (Some value) bits).
Proof.
  intros Hv Hb Hfit. unfold __init__.
  rewrite leb_true by lia. py_simpl.
  rewrite ltb_true by lia.
  rewrite ltb_false by lia. now py_simpl.
Qed.

Lemma init_default (value bits : Z) :
  0 <= value -> bits <= 0 ->
  __init__ value bits = ret (mk (Some value) (get_bin_len value)).
Proof.
  intros Hv Hb. unfold __init__.
  rewrite leb_true by lia. py_simpl.
  now rewrite ltb_false by lia.
Qed.

(** C5, the claim as written fails: [CommonBits(256, 8)] prints its complaint
    and returns an object with [data = 256] and [data_bin_len = 8]. *)
Lemma init_256_8_constructs :
  __init__ 256 8 =
    mkPy (Returned (mk (Some 256) 8))
         ["CommonBits: Error: input data 256 does not fit in passed number of bits (8)"].
Proof. reflexivity. Qed.

(** C5, amended: for a non-negative value and an explicit positive width
    smaller than the value's bit length, construction prints
    "CommonBits: Error: input data <value> does not fit in passed number of
    bits (<width>)" and completes: the object holds the whole value, not
    truncated, and the explicit width. *)
Theorem init_too_narrow (value bits : Z) :
  0 <= value -> 0 < bits -> bits < get_bin_len value ->
  __init__ value bits =
    mkPy (Returned (mk (Some value) bits))
         [("CommonBits: Error: input data " ++ fmt_d value
           ++ " does not fit in passed number of bits (" ++ fmt_d bits ++ ")")%string].
Proof.
  intros Hv Hb Hfit. unfold __init__.
  rewrite leb_true by lia. py_simpl.
  rewrite ltb_true by lia.
  rewrite ltb_true by lia.
  now rewrite bind_print.
Qed.

Lemma init_too_narrow_witness :
  __init__ 0xDEADBEEF 16 =
    mkPy (Returned (mk (Some 0xDEADBEEF) 16))
         [("CommonBits: Error: input data " ++ fmt_d 0xDEADBEEF
           ++ " does not fit in passed number of bits (" ++ fmt_d 16 ++ ")")%string].
Proof.
  apply (init_too_narrow 0xDEADBEEF 16); [lia|lia|vm_compute; reflexivity].
Defined.

(** ** Concatenation *)

Lemma write_field_high (da wb n : Z) :
  0 <= wb -> 0 <= n -> 0 <= da < 2 ^ n ->
  write_field 0 wb n da = da * 2 ^ wb.
Proof.
  intros Hwb Hn Hda. unfold write_field.
  now rewrite Z.land_0_l, Z.lor_0_l, Z.shiftl_mul_pow2.
Qed.

Lemma write_field_low (hi_part db wb : Z) :
  0 <= wb -> 0 <= db < 2 ^ wb ->
  write_field (hi_part * 2 ^ wb) 0 wb db = hi_part * 2 ^ wb + db.
Proof.
  intros Hwb Hdb.
  assert (Hdisj : Z.land (hi_part * 2 ^ wb) db = 0).
  { apply Z.bits_inj'; intros i Hi.
    rewrite Z.land_spec, Z.bits_0, <- Z.shiftl_mul_pow2 by lia.
    destruct (Z.lt_ge_cases i wb).
    - now rewrite Z.shiftl_spec_low.
    - rewrite (testbit_small db wb i) by lia. apply andb_false_r. }
  rewrite (Z.add_nocarry_lxor _ _ Hdisj), (Z.lxor_lor _ _ Hdisj).
  apply Z.bits_inj'; intros i Hi.
  rewrite write_field_testbit by lia.
  rewrite Z.lor_spec, Z.sub_0_r, Z.add_0_l.
  rewrite <- Z.shiftl_mul_pow2 by lia.
  destruct (Z.leb_spec 0 i), (Z.ltb_spec i wb); cbn [andb]; try lia.
  - now rewrite Z.shiftl_spec_low.
  - rewrite (testbit_small db wb i) by lia. now rewrite orb_false_r.
Qed.

(** What [&] returns for well-formed operands. *)
Lemma and_well_formed (a b : t) (da db : Z) :
  data a = Some da -> data b = Some db ->
  0 < data_bin_len a -> 0 < data_bin_len b ->
  0 <= da < 2 ^ data_bin_len a -> 0 <= db < 2 ^ data_bin_len b ->
  __and__ a b =
    ret (mk (Some (da * 2 ^ data_bin_len b + db))
            (data_bin_len a + data_bin_len b)).
Proof.
  intros Ha Hb Hwa Hwb Hda Hdb. unfold __and__.
  rewrite init_explicit by (rewrite ?get_bin_len_0; lia). py_simpl.
  rewrite (get_data_ok a da Ha). py_simpl.
  cbn [data_bin_len].
  rewrite setitem_slice with (d := 0);
    [|reflexivity|cbn [data_bin_len]; lia|].
  2:{ replace (data_bin_len a + data_bin_len b - 1 - data_bin_len b + 1)
        with (data_bin_len a) by lia. exact Hda. }
  py_simpl. rewrite (get_data_ok b db Hb). py_simpl.
  replace (data_bin_len a + data_bin_len b - 1 - data_bin_len b + 1)
    with (data_bin_len a) by lia.
  rewrite write_field_high by lia. cbn [data_bin_len].
  rewrite setitem_slice with (d := da * 2 ^ data_bin_len b);
    [|reflexivity|cbn [data_bin_len]; lia|].
  2:{ replace (data_bin_len b - 1 - 0 + 1) with (data_bin_len b) by lia.
      exact Hdb. }
  py_simpl. cbn [data_bin_len].
  replace (data_bin_len b - 1 - 0 + 1) with (data_bin_len b) by lia.
  now rewrite write_field_low by lia.
Qed.

(** C8: for containers [a] and [b] within their (positive) widths,
    [a & b] returns a container of width [a.width + b.width] whose data is
    [a.data * 2^(b.width) + b.data]; concatenating the 16-bit [0xDEAD] with
    the 16-bit [0xBEEF] gives the 32-bit [0xDEADBEEF]. *)
Theorem and_concatenates (a b : t) (da db : Z) :
  data a = Some da -> data b = Some db ->
  0 < data_bin_len a -> 0 < data_bin_len b ->
  0 <= da < 2 ^ data_bin_len a -> 0 <= db < 2 ^ data_bin_len b ->
  __and__ a b =
    ret (mk (Some (da * 2 ^ data_bin_len b + db))
            (data_bin_len a + data_bin_len b)) /\
  (x <- __init__ 0xDEAD 16 ;; y <- __init__ 0xBEEF 16 ;; __and__ x y) =
    ret (mk (Some 0xDEADBEEF) 32).
Proof.
  intros Ha Hb Hwa Hwb Hda Hdb. split.
  - now apply and_well_formed.
  - reflexivity.
Qed.

Lemma and_concatenates_witness :
  __and__ (mk (Some 5) 3) (mk (Some 2) 4) = ret (mk (Some (5 * 2 ^ 4 + 2)) (3 + 4)).
Proof.
  apply (proj1 (and_concatenates (mk (Some 5) 3) (mk (Some 2) 4) 5 2
                  eq_refl eq_refl ltac:(simpl; lia) ltac:(simpl; lia)
                  ltac:(simpl; lia) ltac:(simpl; lia))).
Defined.

(** ** The width invariant *)

Lemma outcome_bind {A B} (m : Py A) (f : A -> Py B) (a : A) :
  outcome m = Returned a -> outcome (bind m f) = outcome (f a).
Proof. intros H. unfold bind. now rewrite H. Qed.

(** [check_slice] always returns, and returns [0] only for an index inside
    the container: a slice without step, most significant bound first. *)
Lemma check_slice_returns (c : t) (ix : index) :
  exists k,
    outcome (check_slice c ix) = Returned k /\
    (k = 0 ->
     match ix with
     | Slice start stop step =>
         step = None /\ stop <= start < data_bin_len c
     | Bit i => i < data_bin_len c
     end).
Proof.
  destruct ix as [start stop step|i]; unfold check_slice.
  - destruct step as [s|];
      destruct (Z.ltb_spec start stop);
      destruct (Z.leb_spec (data_bin_len c) start);
      eexists; (split; [reflexivity|]); cbn; intros Hk;
      first [discriminate Hk | split; [reflexivity|lia]].
  - destruct (Z.leb_spec (data_bin_len c) i);
      eexists; (split; [reflexivity|]); intros Hk;
      first [discriminate Hk | lia].
Qed.

(** A write that completes leaves a well-formed container well-formed, and
    never changes the width. *)
Lemma setitem_preserves (c c' : t) (ix : index) (value : Z) :
  well_formed c ->
  outcome (__setitem__ c ix value) = Returned c' ->
  well_formed c' /\ data_bin_len c' = data_bin_len c.
Proof.
  intros Hwf.
  assert (Hsame : well_formed c /\ data_bin_len c = data_bin_len c)
    by (split; [exact Hwf|reflexivity]).
  destruct Hwf as [Hw (d & Hdata & Hd)].
  unfold __setitem__.
  destruct (check_slice_returns c ix) as (k & Hk & Hk0).
  rewrite (outcome_bind _ _ k Hk).
  destruct (Z.eqb_spec k 0) as [->|Hne];
    [|cbn; intros [= <-]; exact Hsame].
  specialize (Hk0 eq_refl).
  destruct ix as [start stop step|i].
  - destruct Hk0 as [-> Hrange].
    rewrite bitmask_ok by lia. rewrite bind_ret.
    set (n := start - stop + 1) in *.
    assert (Hn : 1 <= n) by (subst n; lia).
    pose proof (pow2_pos n ltac:(lia)) as Hp.
    assert (Hwrite : forall x, 0 <= x < 2 ^ n ->
              outcome
                (d0 <- get_data c ;;
                 m <- lshift (2 ^ n - 1) stop ;;
                 v <- lshift x stop ;;
                 ret (mk (Some (Z.lor (Z.land d0 (Z.lnot m)) v)) (data_bin_len c)))
              = Returned c' ->
              well_formed c' /\ data_bin_len c' = data_bin_len c).
    { intros x Hx.
      rewrite (get_data_ok c d Hdata), bind_ret. unfold lshift.
      destruct (Z.ltb_spec stop 0) as [Hneg|Hpos]; [discriminate|].
      rewrite !bind_ret. cbn [ret outcome]. intros [= <-].
      split; [|reflexivity]. split; [exact Hw|].
      exists (write_field d stop n x). split; [reflexivity|].
      cbn [data_bin_len]. apply write_field_bound; subst n; lia. }
    destruct (Z.eqb_spec value (-1)) as [->|Hm1].
    + rewrite !bind_ret. rewrite Z.leb_refl. apply Hwrite. lia.
    + destruct (Z.leb_spec 0 value) as [Hnn|Hneg].
      * rewrite !bind_ret. rewrite get_bin_len_mask by lia.
        destruct (Z.leb_spec (get_bin_len value) n) as [Hfit|Hbig].
        -- apply get_bin_len_le in Hfit; try lia. apply Hwrite. lia.
        -- cbn. intros [= <-]. exact Hsame.
      * cbn. discriminate.
  - rewrite bitmask_ok by lia. rewrite bind_ret.
    change (2 ^ 1 - 1) with 1. change (get_bin_len 1) with 1.
    destruct (Z.leb_spec (get_bin_len value) 1) as [Hfit|Hbig];
      [|cbn; intros [= <-]; exact Hsame].
    assert (Hv : 0 <= value).
    { destruct (Z.lt_ge_cases value 0) as [Hneg|]; [|assumption].
      pose proof (get_bin_len_neg_gt_1 value Hneg). lia. }
    apply get_bin_len_le in Hfit; try lia.
    rewrite (get_data_ok c d Hdata), bind_ret. unfold lshift.
    destruct (Z.ltb_spec i 0) as [Hneg|Hpos]; [discriminate|].
    rewrite !bind_ret. cbn [ret outcome]. intros [= <-].
    split; [|reflexivity]. split; [exact Hw|].
    exists (write_field d i 1 value). split; [reflexivity|].
    cbn [data_bin_len]. apply write_field_bound; lia.
Qed.

(** Construction from a value that fits gives a well-formed container. *)
Lemma init_well_formed (value bits : Z) (c : t) :
  fits value bits ->
  outcome (__init__ value bits) = Returned c -> well_formed c.
Proof.
  intros [Hv Hfit] Hret.
  destruct (Z.lt_ge_cases 0 bits) as [Hb|Hb].
  - rewrite init_explicit in Hret by auto. cbn in Hret. injection Hret as <-.
    split; [exact Hb|]. exists value. split; [reflexivity|].
    cbn [data_bin_len]. split; [exact Hv|]. apply get_bin_len_le; auto; lia.
  - rewrite init_default in Hret by auto. cbn in Hret. injection Hret as <-.
    pose proof (get_bin_len_ge_1 value) as Hl.
    split; [cbn [data_bin_len]; lia|]. exists value. split; [reflexivity|].
    cbn [data_bin_len]. split; [exact Hv|]. apply get_bin_len_le; lia.
Qed.

Lemma and_preserves (a b c : t) :
  well_formed a -> well_formed b ->
  outcome (__and__ a b) = Returned c -> well_formed c.
Proof.
  intros [Hwa (da & Ha & Hda)] [Hwb (db & Hb & Hdb)] Hret.
  rewrite (and_well_formed a b da db) in Hret by assumption.
  cbn in Hret. injection Hret as <-.
  split; [cbn [data_bin_len]; lia|].
  exists (da * 2 ^ data_bin_len b + db). split; [reflexivity|].
  cbn [data_bin_len]. rewrite Z.pow_add_r by lia.
  pose proof (pow2_pos (data_bin_len b) ltac:(lia)). nia.
Qed.

Lemma built_well_formed (c : t) : built c -> well_formed c.
Proof.
  induction 1 as [value bits c Hfit Hret
                 |c ix r _ IH _
                 |c c' ix value _ IH Hret
                 |a b c _ IHa _ IHb Hret].
  - exact (init_well_formed value bits c Hfit Hret).
  - exact IH.
  - exact (proj1 (setitem_preserves c c' ix value IH Hret)).
  - exact (and_preserves a b c IHa IHb Hret).
Qed.

(** C3, the claim as written fails: construction from [256] with width [8]
    completes and leaves [data = 256], which is not below [2^8]. *)
Lemma init_256_8_breaks_invariant :
  exists c, outcome (__init__ 256 8) = Returned c /\ ~ invariant c.
Proof.
  exists (mk (Some 256) 8). split; [reflexivity|].
  intros (d & Hd & Hr). cbn in Hd, Hr. injection Hd as <-. lia.
Qed.

(** C3, amended: a container constructed from a non-negative value that fits
    its width (the explicit one, or the value's own bit length when none is
    given) satisfies [0 <= data < 2^width] after construction and after every
    later read, write and concatenation that completes; the width is positive
    and a write leaves it as it was. *)
Theorem built_invariant (c : t) :
  built c ->
  invariant c /\ 0 < data_bin_len c /\
  (forall ix value c',
     outcome (__setitem__ c ix value) = Returned c' ->
     invariant c' /\ data_bin_len c' = data_bin_len c).
Proof.
  intros Hb. pose proof (built_well_formed c Hb) as Hwf.
  split; [exact (proj2 Hwf)|]. split; [exact (proj1 Hwf)|].
  intros ix value c' Hret.
  destruct (setitem_preserves c c' ix value Hwf Hret) as [Hwf' Hlen].
  split; [exact (proj2 Hwf')|exact Hlen].
Qed.

Lemma built_invariant_witness :
  invariant (mk (Some 0xdeadbabe) 32).
Proof.
  apply (built_invariant (mk (Some 0xdeadbabe) 32)).
  apply (built_setitem (mk (Some 0xdeadbeef) 32) _ (Slice 15 0 None) 0xbabe).
  - apply (built_init 0xdeadbeef 0).
    + split; [lia|]. intros H. vm_compute in H. discriminate H.
    + reflexivity.
  - reflexivity.
Defined.

(** ** Positions of the one and zero bits *)

Lemma in_range (a b i : Z) : In i (range a b) -> a <= i < b.
Proof.
  unfold range. rewrite in_map_iff. intros (k & <- & Hk).
  apply in_seq in Hk. lia.
Qed.

(** A loop whose body appends the element or not is a filter. *)
Lemma for_each_filter {A} (P : A -> bool) (body : A -> list A -> Py (list A))
    (xs : list A) :
  (forall x acc, In x xs ->
     outcome (body x acc) = Returned (if P x then acc ++ [x] else acc)) ->
  forall acc, outcome (for_each xs body acc) = Returned (acc ++ filter P xs).
Proof.
  induction xs as [|x rest IH]; intros Hbody acc.
  - cbn. now rewrite app_nil_r.
  - cbn [for_each filter].
    rewrite (outcome_bind _ _ _ (Hbody x acc (or_introl eq_refl))).
    rewrite IH by (intros y acc' Hy; apply Hbody; now right).
    destruct (P x); [|reflexivity].
    now rewrite <- app_assoc.
Qed.

(** An indexed read of the throw-away container [CommonBits(d)]: a bit
    inside the value's own bit length, [None] (after a complaint) above. *)
Lemma getitem_bit_minimal (d i : Z) :
  0 <= d -> 0 <= i ->
  outcome (__getitem__ (mk (Some d) (get_bin_len d)) (Bit i)) =
    Returned (if i <? get_bin_len d then Some (Z.b2z (Z.testbit d i)) else None).
Proof.
  intros Hd Hi. destruct (Z.ltb_spec i (get_bin_len d)) as [Hin|Hout].
  - now rewrite getitem_bit with (d := d) by (cbn [data data_bin_len]; auto).
  - unfold __getitem__, check_slice. cbn [data_bin_len].
    now rewrite leb_true by lia.
Qed.

Lemma testbit_above_bin_len (d i : Z) :
  0 <= d -> get_bin_len d <= i -> Z.testbit d i = false.
Proof.
  intros Hd Hi. apply (testbit_small d (get_bin_len d) i); [|exact Hi].
  split; [exact Hd|]. apply get_bin_len_le; try lia.
  apply get_bin_len_ge_1.
Qed.

Section Positions.

Variables (c : t) (d : Z).
Hypothesis Hdata : data c = Some d.
Hypothesis Hd : 0 <= d.

(** [hi()] returns the positions of the one bits below the width: the bits
    it fails to read are zero. *)
Lemma hi_returns :
  outcome (hi c) = Returned (high_bit_positions_spec d (data_bin_len c)).
Proof.
  unfold hi, high_bit_positions_spec.
  rewrite (get_data_ok c d Hdata), bind_ret.
  rewrite init_default by lia. rewrite bind_ret.
  apply (for_each_filter (fun i => Z.testbit d i)).
  intros i acc Hin. apply in_range in Hin.
  rewrite (outcome_bind _ _ _ (getitem_bit_minimal d i Hd ltac:(lia))).
  destruct (Z.ltb_spec i (get_bin_len d)) as [Hlow|Hhigh].
  - destruct (Z.testbit d i); reflexivity.
  - now rewrite testbit_above_bin_len by lia.
Qed.

(** [lo()] returns the positions of the zero bits below the width and below
    the value's own bit length. *)
Lemma lo_returns :
  outcome (lo c) =
    Returned (filter (fun i => (i <? get_bin_len d) && negb (Z.testbit d i))
                     (range 0 (data_bin_len c))).
Proof.
  unfold lo.
  rewrite (get_data_ok c d Hdata), bind_ret.
  rewrite init_default by lia. rewrite bind_ret.
  apply (for_each_filter
           (fun i => (i <? get_bin_len d) && negb (Z.testbit d i))).
  intros i acc Hin. apply in_range in Hin.
  rewrite (outcome_bind _ _ _ (getitem_bit_minimal d i Hd ltac:(lia))).
  destruct (Z.ltb_spec i (get_bin_len d)) as [Hlow|Hhigh]; cbn [andb].
  - destruct (Z.testbit d i); reflexivity.
  - reflexivity.
Qed.

End Positions.

(** C9, at a failing input: for [CommonBits(1, 4)], [lo()] returns the empty
    list, after three failed reads, where bits 1, 2 and 3 are zero; [hi()]
    returns [[0]]. *)
Theorem lo_misses_leading_zeros :
  (c <- __init__ 1 4 ;; lo c) =
    mkPy (Returned [])
         ["CommonBits: Error: Passed MSbit does not exist in data";
          "CommonBits: Error: invalid slice range";
          "CommonBits: Error: Passed MSbit does not exist in data";
          "CommonBits: Error: invalid slice range";
          "CommonBits: Error: Passed MSbit does not exist in data";
          "CommonBits: Error: invalid slice range"] /\
  low_bit_positions_spec 1 4 = [1; 2; 3] /\
  outcome (c <- __init__ 1 4 ;; hi c) = Returned (high_bit_positions_spec 1 4).
Proof. split; [reflexivity|]. split; reflexivity. Qed.

(** ** Truncation *)

(** For [r > 0], the default [int_truncate] is the floor of [inp / 2^r], and
    the SYMMETRIC one rounds toward zero: it is the quotient [inp ÷ 2^r],
    so that truncating [-inp] gives minus the truncation of [inp]. *)
Theorem int_truncate_floor_quot (inp r : Z) (direction : string) :
  0 < r ->
  int_truncate inp r "SYMMETRIC" = Z.quot inp (2 ^ r) /\
  int_truncate (- inp) r "SYMMETRIC" = - int_truncate inp r "SYMMETRIC" /\
  (direction <> "SYMMETRIC" -> int_truncate inp r direction = inp / 2 ^ r).
Proof.
  intros Hr.
  pose proof (pow2_pos r ltac:(lia)) as Hp.
  assert (Hsym : forall x, int_truncate x r "SYMMETRIC" = Z.quot x (2 ^ r)).
  { intros x. unfold int_truncate. rewrite ltb_true by lia.
    cbn [String.eqb Ascii.eqb Bool.eqb andb].
    rewrite !Z.shiftr_div_pow2 by lia.
    destruct (Z.leb_spec 0 x).
    - symmetry. apply Z.quot_div_nonneg; lia.
    - rewrite <- (Z.opp_involutive x) at 2.
      rewrite Z.quot_opp_l by lia.
      rewrite Z.quot_div_nonneg by lia. reflexivity. }
  split; [apply Hsym|]. split.
  - rewrite !Hsym. apply Z.quot_opp_l. lia.
  - intros Hd. apply String.eqb_neq in Hd.
    unfold int_truncate. rewrite ltb_true by lia. rewrite Hd.
    apply Z.shiftr_div_pow2. lia.
Qed.

Lemma int_truncate_floor_quot_witness :
  int_truncate (-3) 1 "SYMMETRIC" = Z.quot (-3) (2 ^ 1) /\
  int_truncate (-3) 1 "" = -3 / 2 ^ 1.
Proof.
  split.
  - apply (proj1 (int_truncate_floor_quot (-3) 1 "" ltac:(lia))).
  - apply (proj2 (proj2 (int_truncate_floor_quot (-3) 1 "" ltac:(lia)))).
    discriminate.
Defined.

(** ** More on wrapping and clipping *)

Lemma pow2_double (w : Z) : 0 < w -> 2 ^ w = 2 * 2 ^ (w - 1).
Proof.
  intros Hw. replace w with (w - 1 + 1) at 1 by lia.
  rewrite Z.pow_add_r, Z.pow_1_r by lia. lia.
Qed.

(** [int_wrap] is reduction modulo [2^w] into the signed range: it differs
    from its input by a multiple of [2^w], does not see multiples of [2^w]
    added to the input, and wrapping twice is wrapping once. *)
Theorem int_wrap_modular (v w k : Z) :
  0 < w ->
  (int_wrap v w - v) mod 2 ^ w = 0 /\
  int_wrap (v + k * 2 ^ w) w = int_wrap v w /\
  int_wrap (int_wrap v w) w = int_wrap v w.
Proof.
  intros Hw.
  pose proof (pow2_pos w ltac:(lia)) as Hp.
  split; [|split].
  - rewrite int_wrap_mod by exact Hw.
    pose proof (pow2_double w Hw) as H2.
    pose proof (Z.div_mod (v + 2 ^ (w - 1)) (2 ^ w) ltac:(lia)) as Hd.
    replace ((v + 2 ^ (w - 1)) mod 2 ^ w - 2 ^ (w - 1) - v)
      with (- ((v + 2 ^ (w - 1)) / 2 ^ w) * 2 ^ w) by lia.
    apply Z.mod_mul. lia.
  - rewrite !int_wrap_mod by exact Hw.
    replace (v + k * 2 ^ w + 2 ^ (w - 1)) with (v + 2 ^ (w - 1) + k * 2 ^ w) by lia.
    now rewrite Z.mod_add by lia.
  - apply int_wrap_id; [exact Hw|]. now apply int_wrap_range.
Qed.

Lemma int_wrap_modular_witness :
  (int_wrap 200 8 - 200) mod 2 ^ 8 = 0 /\
  int_wrap (200 + 3 * 2 ^ 8) 8 = int_wrap 200 8 /\
  int_wrap (int_wrap 200 8) 8 = int_wrap 200 8.
Proof. apply (int_wrap_modular 200 8 3). lia. Defined.

Lemma int_clip_in_range (v w : Z) :
  0 < w -> - 2 ^ (w - 1) <= int_clip v w false <= 2 ^ (w - 1) - 1.
Proof.
  intros Hw. pose proof (pow2_pos (w - 1) ltac:(lia)) as Hp.
  unfold int_clip. rewrite ltb_true by lia.
  destruct (Z.ltb_spec (2 ^ (w - 1) - 1) v), (Z.ltb_spec v (- 2 ^ (w - 1))); lia.
Qed.

(** [int_clip] lands in the clip range, keeps the order of its inputs, and
    clipping twice is clipping once. *)
Theorem int_clip_range_monotone (v v' w : Z) (symmetric : bool) :
  0 < w ->
  (if symmetric then - 2 ^ (w - 1) + 1 else - 2 ^ (w - 1))
    <= int_clip v w symmetric <= 2 ^ (w - 1) - 1 /\
  (v <= v' -> int_clip v w symmetric <= int_clip v' w symmetric) /\
  int_clip (int_clip v w symmetric) w symmetric = int_clip v w symmetric.
Proof.
  intros Hw. pose proof (pow2_pos (w - 1) ltac:(lia)) as Hp.
  unfold int_clip. rewrite ltb_true by lia.
  set (hi_ := 2 ^ (w - 1) - 1).
  set (lo_ := if symmetric then - 2 ^ (w - 1) + 1 else - 2 ^ (w - 1)).
  assert (lo_ <= hi_) by (subst lo_ hi_; destruct symmetric; lia).
  split; [|split].
  - destruct (Z.ltb_spec hi_ v), (Z.ltb_spec v lo_); lia.
  - intros Hle.
    destruct (Z.ltb_spec hi_ v), (Z.ltb_spec v lo_),
      (Z.ltb_spec hi_ v'), (Z.ltb_spec v' lo_); lia.
  - destruct (Z.ltb_spec hi_ v), (Z.ltb_spec v lo_);
      repeat match goal with
             | |- context [?a <? ?b] => destruct (Z.ltb_spec a b)
             end; lia.
Qed.

Lemma int_clip_range_monotone_witness :
  -2 ^ (8 - 1) + 1 <= int_clip (-300) 8 true <= 2 ^ (8 - 1) - 1 /\
  int_clip (-300) 8 true <= int_clip 5 8 true.
Proof.
  pose proof (int_clip_range_monotone (-300) 5 8 true ltac:(lia)) as (H1 & H2 & _).
  split; [exact H1|apply H2; lia].
Defined.

(** ** Rounding with clip *)

(** With clip and a positive output width the last step is a minimum. *)
Lemma int_round_clip (inp r : Z) (direction : string) (outp_w u : Z) :
  0 < r -> 0 < outp_w ->
  int_round inp r direction false outp_w = ret u ->
  int_round inp r direction true outp_w = ret (Z.min u (2 ^ (outp_w - 1) - 1)).
Proof.
  intros Hr Hw. rewrite int_round_no_clip by exact Hr.
  unfold int_round. rewrite ltb_true by lia.
  set (m := if String.eqb direction "HALF_UP" then _ else _).
  intros Hm.
  assert (Hmu : m = ret u).
  { destruct m as [[a|e|] pr]; unfold bind in Hm; cbn in Hm;
      try discriminate Hm.
    injection Hm as -> Hpr. rewrite app_nil_r in Hpr. now subst pr. }
  rewrite Hmu, bind_ret. unfold pow2. rewrite ltb_false by lia.
  rewrite bind_ret.
  destruct (Z.ltb_spec (2 ^ (outp_w - 1) - 1) u).
  - now rewrite Z.min_r by lia.
  - now rewrite Z.min_l by lia.
Qed.

(** Rounding [r] bits off a value of [outp_w + r] bits gives at most
    [2^(outp_w-1)], one above the [outp_w]-bit maximum, and never goes below
    the minimum; with clip the result fits in [outp_w] bits.  Without clip
    the largest input does overflow. *)
Theorem int_round_clip_fits (inp r outp_w : Z) (direction : string) :
  0 < r -> 0 < outp_w ->
  direction = "HALF_UP" \/ direction = "HALF_AWAY" \/ direction = "HALF_EVEN" ->
  - 2 ^ (outp_w + r - 1) <= inp <= 2 ^ (outp_w + r - 1) - 1 ->
  (exists u q,
     int_round inp r direction false outp_w = ret u /\
     int_round inp r direction true outp_w = ret q /\
     - 2 ^ (outp_w - 1) <= u <= 2 ^ (outp_w - 1) /\
     q = Z.min u (2 ^ (outp_w - 1) - 1) /\
     - 2 ^ (outp_w - 1) <= q <= 2 ^ (outp_w - 1) - 1) /\
  (1 < outp_w ->
   int_round (2 ^ (outp_w + r - 1) - 1) r direction false outp_w =
     ret (2 ^ (outp_w - 1))).
Proof.
  intros Hr Hw Hdir Hin.
  pose proof (pow2_pos (r - 1) ltac:(lia)) as Hh.
  pose proof (pow2_pos (outp_w - 1) ltac:(lia)) as Hm.
  pose proof (pow2_double r Hr) as H2.
  assert (Hbig : 2 ^ (outp_w + r - 1) = 2 ^ (outp_w - 1) * 2 ^ r).
  { replace (outp_w + r - 1) with (outp_w - 1 + r) by lia.
    apply Z.pow_add_r; lia. }
  rewrite Hbig in *.
  set (h := 2 ^ (r - 1)) in *. set (M := 2 ^ (outp_w - 1)) in *.
  pose proof (int_round_half_up inp r outp_w Hr) as Hup.
  pose proof (int_round_half_away inp r outp_w Hr) as Haway.
  pose proof (int_round_half_even inp r outp_w Hr) as Heven.
  cbv zeta in Heven. fold h in Hup, Haway, Heven.
  assert (Hupb : - M <= (inp + h) / 2 ^ r <= M).
  { split.
    - apply Z.div_le_lower_bound; lia.
    - enough ((inp + h) / 2 ^ r < M + 1) by lia.
      apply Z.div_lt_upper_bound; lia. }
  assert (Hdown : - M <= (inp + h - 1) / 2 ^ r).
  { apply Z.div_le_lower_bound; lia. }
  assert (Hmono : (inp + h - 1) / 2 ^ r <= (inp + h) / 2 ^ r).
  { apply Z.div_le_mono; lia. }
  split.
  - assert (Hex : exists u, int_round inp r direction false outp_w = ret u /\
                            - M <= u <= M).
    { destruct Hdir as [-> | [-> | ->]].
      - eexists. split; [exact Hup|exact Hupb].
      - eexists. split; [exact Haway|]. destruct (0 <=? inp); lia.
      - eexists. split; [exact Heven|].
        destruct (Z.eqb_spec (inp mod 2 ^ r) h) as [Hhalf|_]; cbn [andb];
          [|exact Hupb].
        destruct (Z.odd ((inp + h) / 2 ^ r)) eqn:Hodd; [|exact Hupb].
        assert (Hq : (inp + h) / 2 ^ r = inp / 2 ^ r + 1).
        { pose proof (Z.div_mod inp (2 ^ r) ltac:(lia)).
          symmetry. apply Z.div_unique with (r := 0); lia. }
        assert (Hlow : - M <= inp / 2 ^ r)
          by (apply Z.div_le_lower_bound; lia).
        lia. }
    destruct Hex as (u & Hu & Hub).
    exists u, (Z.min u (M - 1)). split; [exact Hu|]. split.
    + now apply int_round_clip.
    + split; [exact Hub|]. split; [reflexivity|lia].
  - intros Hw1.
    assert (Htop : (M * 2 ^ r - 1 + h) / 2 ^ r = M).
    { symmetry. apply Z.div_unique with (r := h - 1); lia. }
    destruct Hdir as [-> | [-> | ->]].
    + rewrite int_round_half_up by exact Hr. fold h. now rewrite Htop.
    + rewrite int_round_half_away by exact Hr. fold h.
      rewrite leb_true by nia. now rewrite Htop.
    + rewrite int_round_half_even by exact Hr. cbv zeta. fold h.
      rewrite Htop.
      assert (Hodd : Z.odd M = false).
      { subst M. replace (outp_w - 1) with (Z.succ (outp_w - 2)) by lia.
        rewrite Z.pow_succ_r by lia. rewrite Z.odd_mul. reflexivity. }
      rewrite Hodd, andb_false_r. reflexivity.
Qed.

Lemma int_round_clip_fits_witness :
  (exists u q,
     int_round 127 4 "HALF_UP" false 4 = ret u /\
     int_round 127 4 "HALF_UP" true 4 = ret q /\
     - 2 ^ (4 - 1) <= u <= 2 ^ (4 - 1) /\
     q = Z.min u (2 ^ (4 - 1) - 1) /\
     - 2 ^ (4 - 1) <= q <= 2 ^ (4 - 1) - 1) /\
  (1 < 4 -> int_round (2 ^ (4 + 4 - 1) - 1) 4 "HALF_UP" false 4 = ret (2 ^ (4 - 1))).
Proof.
  apply (int_round_clip_fits 127 4 4 "HALF_UP"); [lia|lia|now left|simpl; lia].
Defined.

(** The stage of [int_round] before the clip always returns a value when
    the direction is the default one. *)
Lemma int_round_default_returns (inp r : Z) :
  exists u, int_round inp r "HALF_AWAY" false 0 = ret u.
Proof.
  destruct (Z.lt_ge_cases 0 r) as [Hr|Hr].
  - eexists. now apply int_round_half_away.
  - exists inp. unfold int_round. now rewrite ltb_false by lia.
Qed.

(** ** Unsigned rounding *)

(** For a natural input and [r > 0], [uint_round] gives the same result for
    HALF_AWAY as for HALF_UP, a natural number, and with clip a number of at
    most [outp_w] bits; for a negative input it prints its complaint and
    returns [None], whatever the other arguments. *)
Theorem uint_round_natural (inp r outp_w : Z) :
  0 < r ->
  (0 <= inp ->
   uint_round inp r "HALF_AWAY" false outp_w =
     uint_round inp r "HALF_UP" false outp_w /\
   (exists q, uint_round inp r "HALF_UP" false outp_w = ret (Some q) /\ 0 <= q) /\
   (0 <= outp_w ->
    exists q, uint_round inp r "HALF_UP" true outp_w = ret (Some q) /\
              0 <= q <= 2 ^ outp_w - 1)) /\
  (inp < 0 ->
   forall direction clip,
     uint_round inp r direction clip outp_w =
       mkPy (Returned None) ["uint_round: Error: unsigned inp must be >= 0"]).
Proof.
  intros Hr. pose proof (pow2_pos r ltac:(lia)) as Hp.
  pose proof (pow2_pos (r - 1) ltac:(lia)) as Hh.
  split.
  - intros Hin. unfold uint_round. rewrite leb_true by lia.
    assert (Hq : 0 <= (inp + 2 ^ (r - 1)) / 2 ^ r)
      by (apply Z.div_pos; lia).
    split; [|split].
    + rewrite int_round_half_away, int_round_half_up by exact Hr.
      now rewrite leb_true by lia.
    + eexists. rewrite int_round_half_up by exact Hr. rewrite bind_ret.
      split; [reflexivity|exact Hq].
    + intros Hw.
      rewrite (int_round_clip inp r "HALF_UP" (outp_w + 1) _ Hr ltac:(lia)
                 (int_round_half_up inp r (outp_w + 1) Hr)).
      rewrite bind_ret. eexists. split; [reflexivity|].
      replace (outp_w + 1 - 1) with outp_w by lia.
      pose proof (pow2_pos outp_w Hw). lia.
  - intros Hneg direction clip. unfold uint_round.
    now rewrite leb_false by lia.
Qed.

Lemma uint_round_natural_witness :
  uint_round 5 1 "HALF_AWAY" false 0 = uint_round 5 1 "HALF_UP" false 0 /\
  uint_round (-5) 1 "HALF_UP" false 0 =
    mkPy (Returned None) ["uint_round: Error: unsigned inp must be >= 0"].
Proof.
  split.
  - apply (proj1 (proj1 (uint_round_natural 5 1 0 ltac:(lia)) ltac:(lia))).
  - apply (proj2 (uint_round_natural (-5) 1 0 ltac:(lia)) ltac:(lia)).
Defined.

(** ** Requantization in general *)

(** The two stages of [int_requantize] before the gain shift, for any flags:
    they always return. *)
Lemma int_requantize_stages (inp inp_w outp_w lsb_w : Z) (lsb_round msb_clip : bool)
    (gain_w : Z) :
  exists x,
    (if lsb_round then int_round (int_wrap inp inp_w) lsb_w "HALF_AWAY" false 0
     else ret (int_truncate (int_wrap inp inp_w) lsb_w "")) = ret x /\
    int_requantize inp inp_w outp_w lsb_w lsb_round msb_clip gain_w =
      (y <- lshift (if msb_clip then int_clip x outp_w false
                    else int_wrap x outp_w) gain_w ;;
       ret (int_wrap y outp_w)).
Proof.
  unfold int_requantize. destruct lsb_round.
  - destruct (int_round_default_returns (int_wrap inp inp_w) lsb_w) as (u & Hu).
    exists u. rewrite Hu. split; [reflexivity|now rewrite bind_ret].
  - eexists. split; [reflexivity|now rewrite bind_ret].
Qed.

(** Whatever the flags, [int_requantize] with a gain of zero or more bits
    returns a value of [outp_w] bits ([0] when [outp_w <= 0]); a negative
    gain raises [ValueError] from the shift. *)
Theorem int_requantize_range (inp inp_w outp_w lsb_w gain_w : Z)
    (lsb_round msb_clip : bool) :
  (0 <= gain_w ->
   exists q,
     int_requantize inp inp_w outp_w lsb_w lsb_round msb_clip gain_w = ret q /\
     (0 < outp_w -> - 2 ^ (outp_w - 1) <= q <= 2 ^ (outp_w - 1) - 1) /\
     (outp_w <= 0 -> q = 0)) /\
  (gain_w < 0 ->
   int_requantize inp inp_w outp_w lsb_w lsb_round msb_clip gain_w =
     raise ValueError).
Proof.
  destruct (int_requantize_stages inp inp_w outp_w lsb_w lsb_round msb_clip gain_w)
    as (x & _ & ->).
  unfold lshift. split.
  - intros Hg. rewrite ltb_false by lia. rewrite bind_ret.
    eexists. split; [reflexivity|]. split.
    + intros Hw. now apply int_wrap_range.
    + intros Hw. unfold int_wrap. now rewrite ltb_false by lia.
  - intros Hg. now rewrite ltb_true by lia.
Qed.

Lemma int_requantize_range_witness :
  (exists q,
     int_requantize 1000 12 8 2 true false 1 = ret q /\
     (0 < 8 -> - 2 ^ (8 - 1) <= q <= 2 ^ (8 - 1) - 1) /\
     (8 <= 0 -> q = 0)) /\
  int_requantize 1000 12 8 2 true false (-1) = raise ValueError.
Proof.
  split.
  - apply (proj1 (int_requantize_range 1000 12 8 2 1 true false)). lia.
  - apply (proj2 (int_requantize_range 1000 12 8 2 (-1) true false)). lia.
Defined.

(** With clip on the MSBs and no gain, the final wrap keeps what the clip
    returned: the output is the clip of the value left after the LSBs were
    removed, so a value too large for the output saturates. *)
Theorem int_requantize_saturates (inp inp_w outp_w lsb_w : Z) (lsb_round : bool) :
  0 < outp_w ->
  exists x,
    (if lsb_round then int_round (int_wrap inp inp_w) lsb_w "HALF_AWAY" false 0
     else ret (int_truncate (int_wrap inp inp_w) lsb_w "")) = ret x /\
    int_requantize inp inp_w outp_w lsb_w lsb_round true 0 =
      ret (int_clip x outp_w false) /\
    (2 ^ (outp_w - 1) - 1 < x ->
     int_requantize inp inp_w outp_w lsb_w lsb_round true 0 =
       ret (2 ^ (outp_w - 1) - 1)) /\
    (x < - 2 ^ (outp_w - 1) ->
     int_requantize inp inp_w outp_w lsb_w lsb_round true 0 =
       ret (- 2 ^ (outp_w - 1))).
Proof.
  intros Hw.
  destruct (int_requantize_stages inp inp_w outp_w lsb_w lsb_round true 0)
    as (x & Hx & Hreq).
  exists x. split; [exact Hx|].
  assert (Hmain : int_requantize inp inp_w outp_w lsb_w lsb_round true 0 =
                  ret (int_clip x outp_w false)).
  { rewrite Hreq. unfold lshift. cbn [Z.ltb Z.compare].
    rewrite bind_ret, Z.shiftl_0_r.
    pose proof (int_clip_in_range x outp_w Hw) as Hr.
    now rewrite int_wrap_id by (try exact Hw; lia). }
  split; [exact Hmain|].
  pose proof (pow2_pos (outp_w - 1) ltac:(lia)) as Hp.
  rewrite Hmain. unfold int_clip. rewrite ltb_true by lia.
  split; intros Hx'.
  - now rewrite ltb_true by lia.
  - rewrite ltb_false by lia. now rewrite ltb_true by lia.
Qed.

Lemma int_requantize_saturates_witness :
  exists x,
    ret (int_truncate (int_wrap 1000 12) 2 "") = ret x /\
    int_requantize 1000 12 6 2 false true 0 = ret (int_clip x 6 false) /\
    (2 ^ (6 - 1) - 1 < x ->
     int_requantize 1000 12 6 2 false true 0 = ret (2 ^ (6 - 1) - 1)) /\
    (x < - 2 ^ (6 - 1) ->
     int_requantize 1000 12 6 2 false true 0 = ret (- 2 ^ (6 - 1))).
Proof. apply (int_requantize_saturates 1000 12 6 2 false). lia. Defined.

(** ** Signed and unsigned views *)

Lemma listify_unlistify (l : list Z) : listify (unlistify l) = l.
Proof. destruct l as [|v [|v' l']]; reflexivity. Qed.

Lemma to_signed_map (arg : pyarg) (w : Z) :
  0 < w ->
  to_signed arg w = ret (unlistify (map (fun v => int_wrap v w) (listify arg))).
Proof.
  intros Hw. unfold to_signed. rewrite ltb_true by lia.
  do 2 f_equal. apply map_ext. intros v.
  pose proof (to_signed_body v w Hw) as Hb. cbv zeta in Hb. exact Hb.
Qed.

Lemma to_unsigned_map (arg : pyarg) (w : Z) :
  0 <= w ->
  to_unsigned arg w = ret (unlistify (map (fun v => v mod 2 ^ w) (listify arg))).
Proof.
  intros Hw. unfold to_unsigned. rewrite ltb_false by lia.
  do 2 f_equal. apply map_ext. intros v. now apply land_mask.
Qed.

Lemma int_wrap_mod_pow2 (v w : Z) :
  0 < w -> int_wrap v w mod 2 ^ w = v mod 2 ^ w.
Proof.
  intros Hw. pose proof (pow2_pos w ltac:(lia)) as Hp.
  rewrite int_wrap_mod by exact Hw.
  pose proof (pow2_double w Hw) as H2.
  pose proof (Z.div_mod (v + 2 ^ (w - 1)) (2 ^ w) ltac:(lia)) as Hd.
  replace ((v + 2 ^ (w - 1)) mod 2 ^ w - 2 ^ (w - 1))
    with (v + - ((v + 2 ^ (w - 1)) / 2 ^ w) * 2 ^ w) by lia.
  apply Z.mod_add. lia.
Qed.

Lemma int_wrap_of_mod (v w : Z) :
  0 < w -> int_wrap (v mod 2 ^ w) w = int_wrap v w.
Proof.
  intros Hw. pose proof (pow2_pos w ltac:(lia)) as Hp.
  rewrite !int_wrap_mod by exact Hw.
  now rewrite Z.add_mod_idemp_l by lia.
Qed.

(** For [width > 0], [to_unsigned] and [to_signed] are two views of the same
    [width] bits, on scalars and element by element on lists: converting to
    the other view and back changes nothing more than converting once, a
    value in the signed range survives the trip through [to_unsigned], and a
    value in the unsigned range the trip through [to_signed].  A list of one
    element comes back as a scalar. *)
Theorem to_signed_to_unsigned (arg : pyarg) (v w : Z) :
  0 < w ->
  (u <- to_unsigned arg w ;; to_signed u w) = to_signed arg w /\
  (s <- to_signed arg w ;; to_unsigned s w) = to_unsigned arg w /\
  (- 2 ^ (w - 1) <= v <= 2 ^ (w - 1) - 1 ->
   (u <- to_unsigned (Scalar v) w ;; to_signed u w) = ret (Scalar v)) /\
  (0 <= v < 2 ^ w ->
   (s <- to_signed (Scalar v) w ;; to_unsigned s w) = ret (Scalar v)) /\
  to_unsigned (PyList [v]) w = ret (Scalar (v mod 2 ^ w)).
Proof.
  intros Hw.
  assert (H1 : forall a, (u <- to_unsigned a w ;; to_signed u w) = to_signed a w).
  { intros a. rewrite to_unsigned_map by lia. rewrite bind_ret.
    rewrite !to_signed_map by exact Hw. rewrite listify_unlistify, map_map.
    do 2 f_equal. apply map_ext. intros x. now apply int_wrap_of_mod. }
  assert (H2 : forall a, (s <- to_signed a w ;; to_unsigned s w) = to_unsigned a w).
  { intros a. rewrite to_signed_map by exact Hw. rewrite bind_ret.
    rewrite !to_unsigned_map by lia. rewrite listify_unlistify, map_map.
    do 2 f_equal. apply map_ext. intros x. now apply int_wrap_mod_pow2. }
  split; [apply H1|]. split; [apply H2|]. split; [|split].
  - intros Hv. rewrite H1, to_signed_map by exact Hw.
    cbn [listify map unlistify]. now rewrite int_wrap_id.
  - intros Hv. rewrite H2, to_unsigned_map by lia.
    cbn [listify map unlistify]. now rewrite Z.mod_small.
  - now rewrite to_unsigned_map by lia.
Qed.

Lemma to_signed_to_unsigned_witness :
  (u <- to_unsigned (Scalar (-5)) 8 ;; to_signed u 8) = ret (Scalar (-5)) /\
  (s <- to_signed (Scalar 200) 8 ;; to_unsigned s 8) = ret (Scalar 200).
Proof.
  pose proof (to_signed_to_unsigned (Scalar 0) (-5) 8 ltac:(lia)) as (_ & _ & H3 & _).
  pose proof (to_signed_to_unsigned (Scalar 0) 200 8 ltac:(lia)) as (_ & _ & _ & H4 & _).
  split; [apply H3; simpl; lia|apply H4; simpl; lia].
Defined.

Lemma c_word_mask_eq : c_word_mask = 2 ^ 32 - 1.
Proof. reflexivity. Qed.

(** [to_uword] is [to_unsigned] at 32 bits, and [signed32] undoes it on the
    32-bit signed range, as [to_signed(_, 32)] does; [signed64] does the same
    for the 64-bit two's-complement code of a value. *)
Theorem signed_word_roundtrip (arg : pyarg) (v : Z) :
  to_unsigned arg 32 = ret (to_uword arg) /\
  (- 2 ^ 31 <= v <= 2 ^ 31 - 1 ->
   signed32 (v mod 2 ^ 32) = v /\
   to_uword (Scalar v) = Scalar (v mod 2 ^ 32) /\
   to_signed (to_uword (Scalar v)) 32 = ret (Scalar v)) /\
  (0 <= v < 2 ^ 32 -> signed32 v = int_wrap v 32) /\
  (0 <= v < 2 ^ 64 -> signed64 v = int_wrap v 64) /\
  (- 2 ^ 63 <= v <= 2 ^ 63 - 1 -> signed64 (v mod 2 ^ 64) = v).
Proof.
  assert (Hu : forall a, to_unsigned a 32 = ret (to_uword a)).
  { intros a. unfold to_unsigned, to_uword. reflexivity. }
  assert (H32 : forall x, 0 <= x < 2 ^ 32 -> signed32 x = int_wrap x 32).
  { intros x Hx. rewrite int_wrap_mod by lia.
    unfold signed32, c_word_sign, c_word_mod, c_word_w.
    change (2 ^ (32 - 1)) with 2147483648 in *.
    change (2 ^ 32) with 4294967296 in *.
    destruct (Z.ltb_spec x 2147483648).
    - rewrite Z.mod_small by lia. lia.
    - replace (x + 2147483648) with (x - 2147483648 + 1 * 4294967296) by lia.
      rewrite Z.mod_add, Z.mod_small by lia. lia. }
  assert (H64 : forall x, 0 <= x < 2 ^ 64 -> signed64 x = int_wrap x 64).
  { intros x Hx. rewrite int_wrap_mod by lia.
    unfold signed64, c_longword_sign, c_longword_mod, c_longword_w.
    change (2 ^ (64 - 1)) with 9223372036854775808 in *.
    change (2 ^ 64) with 18446744073709551616 in *.
    destruct (Z.ltb_spec x 9223372036854775808).
    - rewrite Z.mod_small by lia. lia.
    - replace (x + 9223372036854775808)
        with (x - 9223372036854775808 + 1 * 18446744073709551616) by lia.
      rewrite Z.mod_add, Z.mod_small by lia. lia. }
  split; [apply Hu|]. split; [|split; [apply H32|split; [apply H64|]]].
  - intros Hv.
    assert (Hs : signed32 (v mod 2 ^ 32) = v).
    { rewrite H32 by (apply Z.mod_pos_bound; lia).
      rewrite int_wrap_of_mod by lia. apply int_wrap_id; [lia|].
      change (2 ^ (32 - 1)) with (2 ^ 31). lia. }
    assert (Hw : to_uword (Scalar v) = Scalar (v mod 2 ^ 32)).
    { unfold to_uword. cbn [listify map unlistify].
      rewrite c_word_mask_eq. now rewrite land_mask by lia. }
    split; [exact Hs|]. split; [exact Hw|].
    rewrite Hw, to_signed_map by lia. cbn [listify map unlistify].
    rewrite int_wrap_of_mod by lia. rewrite int_wrap_id; [reflexivity|lia|].
    change (2 ^ (32 - 1)) with (2 ^ 31). lia.
  - intros Hv. rewrite H64 by (apply Z.mod_pos_bound; lia).
    rewrite int_wrap_of_mod by lia. apply int_wrap_id; [lia|].
    change (2 ^ (64 - 1)) with (2 ^ 63). lia.
Qed.

Lemma signed_word_roundtrip_witness :
  signed32 ((-1) mod 2 ^ 32) = -1 /\
  to_signed (to_uword (Scalar (-1))) 32 = ret (Scalar (-1)) /\
  signed64 18446744073709551615 = int_wrap 18446744073709551615 64.
Proof.
  pose proof (signed_word_roundtrip (Scalar 0) (-1)) as (_ & H1 & _).
  pose proof (signed_word_roundtrip (Scalar 0) 18446744073709551615)
    as (_ & _ & _ & H3 & _).
  split; [apply H1; simpl; lia|]. split; [apply H1; simpl; lia|].
  apply H3. simpl. lia.
Defined.

(** ** Greatest common divisor *)

Lemma greatest_common_div_sign (A B : Z) :
  (0 < B -> greatest_common_div A B = Z.gcd A B) /\
  (B < 0 -> greatest_common_div A B = - Z.gcd A B) /\
  (B = 0 -> greatest_common_div A B = A).
Proof.
  funelim (greatest_common_div A B).
  - repeat split; intros; try lia.
  - clear Heqcall Heq.
    destruct H as (Hpos & Hneg & Hzero).
    pose proof (Z.gcd_mod A B n) as Hg.
    rewrite (Z.gcd_comm (A mod B) B) in Hg.
    rewrite (Z.gcd_comm B A) in Hg.
    split; [|split]; intros HB; try lia.
    + pose proof (Z.mod_pos_bound A B HB) as Hm.
      destruct (Z.eq_dec (A mod B) 0) as [Hz|Hnz].
      * rewrite (Hzero Hz). rewrite <- Hg, Hz, Z.gcd_0_r. lia.
      * rewrite Hpos by lia. exact Hg.
    + pose proof (Z.mod_neg_bound A B HB) as Hm.
      destruct (Z.eq_dec (A mod B) 0) as [Hz|Hnz].
      * rewrite (Hzero Hz). rewrite <- Hg, Hz, Z.gcd_0_r. lia.
      * rewrite Hneg by lia. now rewrite Hg.
Qed.

(** [greatest_common_div] returns the greatest common divisor up to sign:
    the result carries the sign of [B], and for [B = 0] it is [A] itself.
    For natural numbers it is the gcd. *)
Theorem greatest_common_div_gcd (A B : Z) :
  Z.abs (greatest_common_div A B) = Z.gcd A B /\
  (0 < B -> greatest_common_div A B = Z.gcd A B) /\
  (B < 0 -> greatest_common_div A B = - Z.gcd A B) /\
  greatest_common_div A 0 = A /\
  (0 <= A -> 0 <= B -> greatest_common_div A B = Z.gcd A B).
Proof.
  pose proof (greatest_common_div_sign A B) as (Hpos & Hneg & Hzero).
  pose proof (greatest_common_div_sign A 0) as (_ & _ & Hzero0).
  pose proof (Z.gcd_nonneg A B) as Hnn.
  split; [|split; [exact Hpos|split; [exact Hneg|split; [now apply Hzero0|]]]].
  - destruct (Z.lt_trichotomy B 0) as [HB|[HB|HB]].
    + rewrite Hneg by exact HB. lia.
    + rewrite (Hzero HB). subst B. now rewrite Z.gcd_0_r.
    + rewrite Hpos by exact HB. lia.
  - intros HA HB. destruct (Z.eq_dec B 0) as [->|HB0].
    + rewrite Hzero0 by reflexivity. rewrite Z.gcd_0_r. lia.
    + apply Hpos. lia.
Qed.

Lemma greatest_common_div_gcd_witness :
  greatest_common_div 4 (-6) = - Z.gcd 4 (-6) /\
  greatest_common_div 12 18 = Z.gcd 12 18.
Proof.
  pose proof (greatest_common_div_gcd 4 (-6)) as (_ & _ & H1 & _).
  pose proof (greatest_common_div_gcd 12 18) as (_ & _ & _ & _ & H2).
  split; [apply H1; lia|apply H2; lia].
Defined.

(** ** Bit reversal *)

Lemma range_succ (k : Z) : 0 <= k -> range 0 (k + 1) = range 0 k ++ [k].
Proof.
  intros Hk. unfold range.
  replace (Z.to_nat (k + 1 - 0)) with (S (Z.to_nat (k - 0))) by lia.
  rewrite seq_S, map_app. cbn [map]. do 2 f_equal. lia.
Qed.

Lemma range_in (a b i : Z) : a <= i < b -> In i (range a b).
Proof.
  intros Hi. unfold range. apply in_map_iff.
  exists (Z.to_nat (i - a)). split; [lia|]. apply in_seq. lia.
Qed.

Lemma land_1 (x : Z) : Z.land x 1 = Z.b2z (Z.testbit x 0).
Proof.
  change 1 with (Z.ones 1) at 1. rewrite Z.land_ones by lia.
  rewrite Z.testbit_spec' by lia. now rewrite Z.pow_0_r, Z.div_1_r.
Qed.

(** The state of the loop of [reverse_bits] after [k] rounds. *)
Lemma reverse_bits_loop (num : Z) (k : nat) :
  let st := fold_left
              (fun (st : Z * Z) (_ : Z) =>
                 let (result, num) := st in
                 (Z.shiftl result 1 + Z.land num 1, Z.shiftr num 1))
              (range 0 (Z.of_nat k)) (0, num) in
  snd st = Z.shiftr num (Z.of_nat k) /\
  0 <= fst st < 2 ^ Z.of_nat k /\
  forall i, 0 <= i ->
    Z.testbit (fst st) i =
      if i <? Z.of_nat k then Z.testbit num (Z.of_nat k - 1 - i) else false.
Proof.
  induction k as [|k IH].
  - cbn [Z.of_nat range fold_left fst snd]. 
    split; [reflexivity|]. split; [cbn; lia|]. intros i Hi.
    rewrite Z.bits_0. now rewrite ltb_false by lia.
  - rewrite Nat2Z.inj_succ, <- Z.add_1_r, range_succ by lia.
    rewrite fold_left_app. cbn [fold_left].
    cbv zeta in IH.
    destruct (fold_left _ (range 0 (Z.of_nat k)) (0, num)) as [R n].
    cbn [fst snd] in *. destruct IH as (Hn & HR & Hbits). subst n.
    rewrite Z.shiftl_mul_pow2, Z.pow_1_r, land_1, Z.shiftr_spec by lia.
    rewrite Z.add_0_l.
    replace (R * 2) with (2 * R) by lia.
    split; [|split].
    + rewrite Z.shiftr_shiftr by lia. reflexivity.
    + rewrite Z.pow_add_r, Z.pow_1_r by lia.
      destruct (Z.testbit num (Z.of_nat k)); cbn [Z.b2z]; lia.
    + intros i Hi. destruct (Z.eq_dec i 0) as [->|Hi0].
      * rewrite Z.testbit_0_r. rewrite ltb_true by lia. f_equal. lia.
      * replace i with (Z.succ (i - 1)) at 1 by lia.
        rewrite Z.testbit_succ_r by lia. rewrite Hbits by lia.
        destruct (Z.ltb_spec (i - 1) (Z.of_nat k)),
          (Z.ltb_spec i (Z.of_nat k + 1)); try lia; try reflexivity.
        f_equal. lia.
Qed.

Lemma reverse_bits_bounds (num n : Z) :
  0 <= n -> 0 <= reverse_bits num n < 2 ^ n.
Proof.
  intros Hn. pose proof (reverse_bits_loop num (Z.to_nat n)) as H.
  cbv zeta in H. rewrite Z2Nat.id in H by lia. apply H.
Qed.

Lemma reverse_bits_testbit (num n i : Z) :
  0 <= i < n -> Z.testbit (reverse_bits num n) i = Z.testbit num (n - 1 - i).
Proof.
  intros Hi. pose proof (reverse_bits_loop num (Z.to_nat n)) as H.
  cbv zeta in H. rewrite Z2Nat.id in H by lia.
  destruct H as (_ & _ & H). unfold reverse_bits. rewrite H by lia.
  now rewrite ltb_true by lia.
Qed.

(** [reverse_bits(num, nofBits)] is a number of [nofBits] bits whose bit [i]
    is bit [nofBits - 1 - i] of [num]; reversing twice gives back the low
    [nofBits] bits of [num]; with [nofBits <= 0] the result is [0]. *)
Theorem reverse_bits_spec (num nofBits : Z) :
  (0 <= nofBits ->
   0 <= reverse_bits num nofBits < 2 ^ nofBits /\
   (forall i, 0 <= i < nofBits ->
      Z.testbit (reverse_bits num nofBits) i = Z.testbit num (nofBits - 1 - i)) /\
   reverse_bits (reverse_bits num nofBits) nofBits = num mod 2 ^ nofBits) /\
  (nofBits <= 0 -> reverse_bits num nofBits = 0).
Proof.
  split.
  - intros Hn. split; [now apply reverse_bits_bounds|].
    split; [intros i Hi; now apply reverse_bits_testbit|].
    apply Z.bits_inj'; intros i Hi.
    destruct (Z.lt_ge_cases i nofBits) as [Hlt|Hge].
    + rewrite Z.mod_pow2_bits_low by lia.
      rewrite !reverse_bits_testbit by lia. f_equal. lia.
    + rewrite Z.mod_pow2_bits_high by lia.
      apply (testbit_small _ nofBits i); [|lia].
      now apply reverse_bits_bounds.
  - intros Hn. unfold reverse_bits, range.
    replace (Z.to_nat (nofBits - 0)) with 0%nat by lia. reflexivity.
Qed.

Lemma reverse_bits_spec_witness :
  reverse_bits (reverse_bits 0xDEADBEEF 8) 8 = 0xDEADBEEF mod 2 ^ 8 /\
  reverse_bits 5 (-3) = 0.
Proof.
  split.
  - apply (proj1 (reverse_bits_spec 0xDEADBEEF 8)). lia.
  - apply (proj2 (reverse_bits_spec 5 (-3))). lia.
Defined.

(** On bytes the multiply-and-mask formula is the 8-bit reversal. *)
Lemma reverse_byte_all :
  forallb (fun b => reverse_byte b =? reverse_bits b 8) (range 0 256) = true.
Proof. vm_compute. reflexivity. Qed.

Lemma reverse_byte_reverse_bits (byte : Z) :
  0 <= byte < 256 -> reverse_byte byte = reverse_bits byte 8.
Proof.
  intros Hb. pose proof reverse_byte_all as H.
  rewrite forallb_forall in H.
  apply Z.eqb_eq, H, range_in. exact Hb.
Qed.

(** For [0 <= byte < 256], [reverse_byte] returns the byte with its eight
    bits in the opposite order, and reversing twice gives the byte back. *)
Theorem reverse_byte_spec (byte : Z) :
  0 <= byte < 256 ->
  0 <= reverse_byte byte < 256 /\
  (forall i, 0 <= i < 8 ->
     Z.testbit (reverse_byte byte) i = Z.testbit byte (7 - i)) /\
  reverse_byte (reverse_byte byte) = byte.
Proof.
  intros Hb. rewrite reverse_byte_reverse_bits by exact Hb.
  pose proof (reverse_bits_bounds byte 8 ltac:(lia)) as Hr.
  change (2 ^ 8) with 256 in Hr.
  split; [exact Hr|]. split.
  - intros i Hi. rewrite reverse_bits_testbit by lia. f_equal.
  - rewrite reverse_byte_reverse_bits by exact Hr.
    apply Z.bits_inj'; intros i Hi.
    destruct (Z.lt_ge_cases i 8) as [Hlt|Hge].
    + rewrite !reverse_bits_testbit by lia. f_equal. lia.
    + rewrite (testbit_small byte 8 i) by (change (2 ^ 8) with 256; lia).
      apply (testbit_small _ 8 i); [|lia].
      apply reverse_bits_bounds. lia.
Qed.

Lemma reverse_byte_spec_witness :
  reverse_byte (reverse_byte 0x1D) = 0x1D.
Proof. apply (reverse_byte_spec 0x1D). lia. Defined.

(** One byte of a word, as [reverse_word] cuts it out. *)
Lemma word_byte (word k : Z) :
  0 <= k ->
  let B := Z.shiftr (Z.land word (Z.shiftl 255 k)) k in
  0 <= B < 256 /\
  forall j, 0 <= j -> Z.testbit B j = (j <? 8) && Z.testbit word (j + k).
Proof.
  intros Hk B.
  assert (Hbits : forall j, 0 <= j ->
            Z.testbit B j = (j <? 8) && Z.testbit word (j + k)).
  { intros j Hj. subst B.
    rewrite Z.shiftr_spec, Z.land_spec, Z.shiftl_spec by lia.
    replace (j + k - k) with j by lia.
    change 255 with (Z.ones 8). rewrite Z.testbit_ones_nonneg by lia.
    apply andb_comm. }
  assert (Hnn : 0 <= B).
  { subst B. apply Z.shiftr_nonneg, Z.land_nonneg. right.
    apply Z.shiftl_nonneg. lia. }
  split; [|exact Hbits]. split; [exact Hnn|].
  change 256 with (2 ^ 8). apply lt_pow2_of_bits; [exact Hnn|lia|].
  intros j Hj. rewrite Hbits by lia. now rewrite ltb_false by lia.
Qed.

Lemma reverse_byte_testbit (B j : Z) :
  0 <= B < 256 ->
  Z.testbit (reverse_byte B) j =
    (0 <=? j) && (j <? 8) && Z.testbit B (7 - j).
Proof.
  intros HB. rewrite reverse_byte_reverse_bits by exact HB.
  destruct (Z.leb_spec 0 j) as [Hj|Hj]; [|now rewrite Z.testbit_neg_r by lia].
  destruct (Z.ltb_spec j 8) as [Hlt|Hge]; cbn [andb].
  - rewrite reverse_bits_testbit by lia. f_equal.
  - apply (testbit_small _ 8 j); [|lia]. apply reverse_bits_bounds. lia.
Qed.

Lemma reverse_word_testbit (word i : Z) :
  0 <= i ->
  Z.testbit (reverse_word word) i =
    if i <? 32 then Z.testbit word (31 - i) else false.
Proof.
  intros Hi. unfold reverse_word. cbv zeta.
  change 0xFF with (Z.shiftl 255 0) at 1.
  change 0xFF00 with (Z.shiftl 255 8).
  change 0xFF0000 with (Z.shiftl 255 16).
  change 0xFF000000 with (Z.shiftl 255 24).
  rewrite <- (Z.shiftr_0_r (Z.land word (Z.shiftl 255 0))).
  destruct (word_byte word 0 ltac:(lia)) as (H0 & B0).
  destruct (word_byte word 8 ltac:(lia)) as (H1 & B1).
  destruct (word_byte word 16 ltac:(lia)) as (H2 & B2).
  destruct (word_byte word 24 ltac:(lia)) as (H3 & B3).
  cbv zeta in *.
  rewrite !Z.lor_spec, !Z.shiftl_spec by lia.
  rewrite !reverse_byte_testbit by assumption.
  assert (Hcase : i < 8 \/ 8 <= i < 16 \/ 16 <= i < 24 \/ 24 <= i < 32 \/ 32 <= i)
    by lia.
  destruct Hcase as [Hc|[Hc|[Hc|[Hc|Hc]]]];
    repeat match goal with
           | |- context [?a <? ?b] => destruct (Z.ltb_spec a b); try lia
           | |- context [?a <=? ?b] => destruct (Z.leb_spec a b); try lia
           end;
    cbn [andb orb]; rewrite ?orb_false_r; try reflexivity.
  - rewrite B3 by lia. rewrite ltb_true by lia. cbn [andb]. f_equal. lia.
  - rewrite B2 by lia. rewrite ltb_true by lia. cbn [andb]. f_equal. lia.
  - rewrite B1 by lia. rewrite ltb_true by lia. cbn [andb]. f_equal. lia.
  - rewrite B0 by lia. rewrite ltb_true by lia. cbn [andb]. f_equal. lia.
Qed.

(** [reverse_word] returns the low 32 bits of its argument in the opposite
    order, for every integer argument; it is [reverse_bits(word, 32)], and
    reversing twice gives back the low 32 bits. *)
Theorem reverse_word_spec (word : Z) :
  0 <= reverse_word word < 2 ^ 32 /\
  (forall i, 0 <= i < 32 ->
     Z.testbit (reverse_word word) i = Z.testbit word (31 - i)) /\
  reverse_word word = reverse_bits word 32 /\
  reverse_word (reverse_word word) = word mod 2 ^ 32.
Proof.
  assert (Hnn : 0 <= reverse_word word).
  { unfold reverse_word. cbv zeta.
    repeat (apply Z.lor_nonneg; split); try apply Z.shiftl_nonneg;
      apply Z.mod_pos_bound; lia. }
  assert (Hb : 0 <= reverse_word word < 2 ^ 32).
  { split; [exact Hnn|]. apply lt_pow2_of_bits; [exact Hnn|lia|].
    intros i Hi. rewrite reverse_word_testbit by lia.
    now rewrite ltb_false by lia. }
  split; [exact Hb|]. split; [|split].
  - intros i Hi. rewrite reverse_word_testbit by lia.
    now rewrite ltb_true by lia.
  - apply Z.bits_inj'; intros i Hi. rewrite reverse_word_testbit by lia.
    destruct (Z.ltb_spec i 32).
    + rewrite reverse_bits_testbit by lia. f_equal.
    + symmetry. apply (testbit_small _ 32 i); [|lia].
      apply reverse_bits_bounds. lia.
  - apply Z.bits_inj'; intros i Hi. rewrite reverse_word_testbit by lia.
    destruct (Z.ltb_spec i 32).
    + rewrite Z.mod_pow2_bits_low by lia.
      rewrite reverse_word_testbit by lia. rewrite ltb_true by lia.
      f_equal. lia.
    + now rewrite Z.mod_pow2_bits_high by lia.
Qed.

(** ** Inverting the most significant bit *)

Lemma lxor_pow2 (x k : Z) :
  0 <= k ->
  Z.lxor x (2 ^ k) = if Z.testbit x k then x - 2 ^ k else x + 2 ^ k.
Proof.
  intros Hk. destruct (Z.testbit x k) eqn:Hb.
  - assert (Hd : Z.land (x - 2 ^ k) (2 ^ k) = 0).
    { rewrite land_pow2 by exact Hk.
      replace (Z.testbit (x - 2 ^ k) k) with false; [reflexivity|].
      symmetry.
      assert (Hx : (x / 2 ^ k) mod 2 = 1) by (apply Z.testbit_true; assumption).
      apply Z.testbit_false; [exact Hk|].
      pose proof (pow2_pos k Hk).
      replace (x - 2 ^ k) with (x + (-1) * 2 ^ k) by lia.
      rewrite Z.div_add by lia.
      rewrite <- Zplus_mod_idemp_l, Hx. reflexivity. }
    pose proof (Z.add_nocarry_lxor _ _ Hd) as Hadd.
    replace (x - 2 ^ k + 2 ^ k) with x in Hadd by lia.
    rewrite Hadd at 1.
    now rewrite Z.lxor_assoc, Z.lxor_nilpotent, Z.lxor_0_r.
  - assert (Hd : Z.land x (2 ^ k) = 0) by (now rewrite land_pow2, Hb).
    symmetry. now apply Z.add_nocarry_lxor.
Qed.

(** For [nofBits >= 1], [invert_msbit] moves the low [nofBits] bits of [num]
    half way round: it returns [(num + 2^(nofBits-1)) mod 2^nofBits], a
    number of [nofBits] bits, and applying it twice gives back
    [num mod 2^nofBits].  For [nofBits <= 0] it raises [TypeError]. *)
Theorem invert_msbit_spec (num nofBits : Z) :
  (1 <= nofBits ->
   invert_msbit num nofBits =
     ret ((num + 2 ^ (nofBits - 1)) mod 2 ^ nofBits) /\
   (x <- invert_msbit num nofBits ;; invert_msbit x nofBits) =
     ret (num mod 2 ^ nofBits)) /\
  (nofBits <= 0 -> invert_msbit num nofBits = raise TypeError).
Proof.
  split.
  - intros Hn.
    pose proof (pow2_pos nofBits ltac:(lia)) as Hp.
    pose proof (pow2_pos (nofBits - 1) ltac:(lia)) as Hh.
    pose proof (pow2_double nofBits ltac:(lia)) as H2.
    assert (Hinv : forall x, invert_msbit x nofBits =
                     ret ((x + 2 ^ (nofBits - 1)) mod 2 ^ nofBits)).
    { intros x. unfold invert_msbit. rewrite ltb_false by lia. f_equal.
      rewrite land_mask, lxor_pow2 by lia.
      rewrite Z.mod_pow2_bits_low by lia.
      pose proof (mod_pow2_succ x (nofBits - 1) ltac:(lia)) as Hs.
      replace (nofBits - 1 + 1) with nofBits in Hs by lia.
      pose proof (Z.mod_pos_bound x (2 ^ (nofBits - 1)) Hh) as Hm.
      pose proof (Z.div_mod x (2 ^ nofBits) ltac:(lia)) as Hd.
      destruct (Z.testbit x (nofBits - 1)).
      - apply Z.mod_unique with (q := x / 2 ^ nofBits + 1); lia.
      - apply Z.mod_unique with (q := x / 2 ^ nofBits); lia. }
    split; [apply Hinv|].
    rewrite Hinv, bind_ret, Hinv. f_equal.
    rewrite Z.add_mod_idemp_l by lia.
    replace (num + 2 ^ (nofBits - 1) + 2 ^ (nofBits - 1))
      with (num + 1 * 2 ^ nofBits) by lia.
    now rewrite Z.mod_add by lia.
  - intros Hn. unfold invert_msbit. now rewrite ltb_true by lia.
Qed.

Lemma invert_msbit_spec_witness :
  invert_msbit 5 4 = ret ((5 + 2 ^ (4 - 1)) mod 2 ^ 4) /\
  invert_msbit 5 0 = raise TypeError.
Proof.
  split.
  - apply (proj1 (invert_msbit_spec 5 4)). lia.
  - apply (proj2 (invert_msbit_spec 5 0)). lia.
Defined.

(** ** More on the container's reads and writes *)

Lemma get_bin_len_le_1 (v : Z) : get_bin_len v <= 1 <-> 0 <= v < 2.
Proof.
  destruct (Z.lt_ge_cases v 0) as [Hneg|Hnn].
  - pose proof (get_bin_len_neg_gt_1 v Hneg). lia.
  - rewrite (get_bin_len_le v 1 Hnn ltac:(lia)). change (2 ^ 1) with 2. lia.
Qed.

(** An indexed write of 0 or 1 stores it with [write_field]. *)
Lemma setitem_bit (c : t) (d i b : Z) :
  data c = Some d -> 0 <= i < data_bin_len c -> 0 <= b < 2 ->
  __setitem__ c (Bit i) b =
    ret (mk (Some (write_field d i 1 b)) (data_bin_len c)).
Proof.
  intros Hdata Hi Hb. unfold __setitem__.
  rewrite check_bit_ok by lia. py_simpl. cbn [Z.eqb].
  rewrite bitmask_ok by lia. py_simpl.
  change (2 ^ 1 - 1) with 1. change (get_bin_len 1) with 1.
  rewrite leb_true by (apply get_bin_len_le_1; lia).
  rewrite (get_data_ok c d Hdata). py_simpl.
  unfold lshift. rewrite ltb_false by lia. now py_simpl.
Qed.

(** An indexed write of [bit] (0 or 1) at an index inside the container
    stores the bit: the indexed read returns it, every other bit is what it
    was, and the width stays; writing any other value prints a complaint and
    leaves the container as it was. *)
Theorem setitem_bit_roundtrip (c : t) (d i value : Z) :
  data c = Some d -> 0 <= i < data_bin_len c ->
  (0 <= value < 2 ->
   exists c' d',
     __setitem__ c (Bit i) value = ret c' /\
     data c' = Some d' /\ data_bin_len c' = data_bin_len c /\
     __getitem__ c' (Bit i) = ret (Some value) /\
     (forall j, 0 <= j -> j <> i -> Z.testbit d' j = Z.testbit d j)) /\
  (value < 0 \/ 2 <= value ->
   __setitem__ c (Bit i) value =
     mkPy (Returned c)
          [("CommonBits: Error: passed value (" ++ fmt_d value
            ++ ") does not fit in bit [" ++ fmt_d i ++ "].")%string]).
Proof.
  intros Hdata Hi. split.
  - intros Hv.
    exists (mk (Some (write_field d i 1 value)) (data_bin_len c)),
      (write_field d i 1 value).
    split; [now apply setitem_bit|].
    split; [reflexivity|]. split; [reflexivity|]. split.
    + rewrite getitem_bit with (d := write_field d i 1 value)
        by (cbn [data data_bin_len]; first [reflexivity|lia]).
      rewrite write_field_testbit by (change (2 ^ 1) with 2; lia).
      rewrite leb_true, ltb_true by lia. cbn [andb].
      rewrite Z.sub_diag. do 2 f_equal.
      assert (value = 0 \/ value = 1) as [->| ->] by lia; reflexivity.
    + intros j Hj Hne.
      rewrite write_field_testbit by (change (2 ^ 1) with 2; lia).
      destruct (Z.leb_spec i j), (Z.ltb_spec j (i + 1)); cbn [andb];
        try reflexivity; lia.
  - intros Hv. unfold __setitem__.
    rewrite check_bit_ok by lia. py_simpl. cbn [Z.eqb].
    rewrite bitmask_ok by lia. py_simpl.
    change (2 ^ 1 - 1) with 1. change (get_bin_len 1) with 1.
    rewrite leb_false; [now rewrite bind_print|].
    pose proof (get_bin_len_le_1 value). lia.
Qed.

Lemma setitem_bit_roundtrip_witness :
  exists c' d',
    __setitem__ (mk (Some 5) 4) (Bit 1) 1 = ret c' /\
    data c' = Some d' /\ data_bin_len c' = 4 /\
    __getitem__ c' (Bit 1) = ret (Some 1) /\
    (forall j, 0 <= j -> j <> 1 -> Z.testbit d' j = Z.testbit 5 j).
Proof.
  apply (proj1 (setitem_bit_roundtrip (mk (Some 5) 4) 5 1 1 eq_refl
                  ltac:(simpl; lia))).
  lia.
Defined.

(** A range write of [-1] sets every bit of the range: the range read
    returns [2^(h-l+1) - 1] afterwards, and the bits outside the range are
    what they were. *)
Theorem setitem_all_ones (c : t) (d h l : Z) :
  data c = Some d ->
  0 <= l /\ l <= h < data_bin_len c ->
  exists c' d',
    __setitem__ c (Slice h l None) (-1) = ret c' /\
    data c' = Some d' /\ data_bin_len c' = data_bin_len c /\
    __getitem__ c' (Slice h l None) = ret (Some (2 ^ (h - l + 1) - 1)) /\
    (forall i, l <= i <= h -> Z.testbit d' i = true) /\
    (forall i, 0 <= i -> i < l \/ h < i -> Z.testbit d' i = Z.testbit d i).
Proof.
  intros Hdata Hrange.
  set (n := h - l + 1). set (m := 2 ^ n - 1).
  pose proof (pow2_pos n ltac:(subst n; lia)) as Hp.
  assert (Hm : 0 <= m < 2 ^ n) by (subst m; lia).
  exists (mk (Some (write_field d l n m)) (data_bin_len c)), (write_field d l n m).
  split.
  - unfold __setitem__.
    rewrite check_slice_ok by lia. py_simpl. cbn [Z.eqb].
    rewrite bitmask_ok by lia. py_simpl. fold n. fold m.
    cbn [Pos.eqb]. py_simpl.
    rewrite Z.leb_refl. rewrite (get_data_ok c d Hdata). py_simpl.
    unfold lshift. rewrite ltb_false by lia. now py_simpl.
  - split; [reflexivity|]. split; [reflexivity|]. split; [|split].
    + rewrite getitem_slice with (d := write_field d l n m)
        by (cbn [data data_bin_len]; first [reflexivity|lia]).
      fold n. now rewrite read_write_field by (subst n; lia).
    + intros i Hi. rewrite write_field_testbit by (subst n; lia).
      rewrite leb_true, ltb_true by (subst n; lia). cbn [andb].
      subst m. replace (2 ^ n - 1) with (Z.ones n)
        by (rewrite Z.ones_equiv; lia).
      rewrite Z.testbit_ones_nonneg by (subst n; lia).
      apply Z.ltb_lt. subst n. lia.
    + intros i Hi Hout. rewrite write_field_testbit by (subst n; lia).
      destruct (Z.leb_spec l i), (Z.ltb_spec i (l + n)); cbn [andb];
        try reflexivity; subst n; lia.
Qed.

Lemma setitem_all_ones_witness :
  exists c' d',
    __setitem__ (mk (Some 0) 8) (Slice 5 2 None) (-1) = ret c' /\
    data c' = Some d' /\ data_bin_len c' = 8 /\
    __getitem__ c' (Slice 5 2 None) = ret (Some (2 ^ (5 - 2 + 1) - 1)) /\
    (forall i, 2 <= i <= 5 -> Z.testbit d' i = true) /\
    (forall i, 0 <= i -> i < 2 \/ 5 < i -> Z.testbit d' i = Z.testbit 0 i).
Proof.
  apply (setitem_all_ones (mk (Some 0) 8) 0 5 2 eq_refl). simpl. lia.
Defined.

(** What a write that returns has done: nothing, or one [write_field] inside
    the container at the place the index names. *)
Lemma setitem_cases (c c' : t) (d : Z) (ix : index) (value : Z) :
  data c = Some d ->
  outcome (__setitem__ c ix value) = Returned c' ->
  c' = c \/
  exists lo n x,
    0 <= lo /\ 1 <= n /\ lo + n <= data_bin_len c /\ 0 <= x < 2 ^ n /\
    c' = mk (Some (write_field d lo n x)) (data_bin_len c) /\
    match ix with
    | Slice start stop _ => stop = lo /\ start = lo + n - 1
    | Bit i => i = lo /\ n = 1
    end.
Proof.
  intros Hdata. unfold __setitem__.
  destruct (check_slice_returns c ix) as (k & Hk & Hk0).
  rewrite (outcome_bind _ _ k Hk).
  destruct (Z.eqb_spec k 0) as [->|Hne];
    [|cbn; intros [= <-]; now left].
  specialize (Hk0 eq_refl).
  destruct ix as [start stop step|i].
  - destruct Hk0 as [-> Hrange].
    rewrite bitmask_ok by lia. rewrite bind_ret.
    set (n := start - stop + 1) in *.
    assert (Hn : 1 <= n) by (subst n; lia).
    pose proof (pow2_pos n ltac:(lia)) as Hp.
    assert (Hwrite : forall x, 0 <= x < 2 ^ n ->
              outcome
                (d0 <- get_data c ;;
                 m <- lshift (2 ^ n - 1) stop ;;
                 v <- lshift x stop ;;
                 ret (mk (Some (Z.lor (Z.land d0 (Z.lnot m)) v)) (data_bin_len c)))
              = Returned c' ->
              c' = c \/
              exists lo n0 x0,
                0 <= lo /\ 1 <= n0 /\ lo + n0 <= data_bin_len c /\
                0 <= x0 < 2 ^ n0 /\
                c' = mk (Some (write_field d lo n0 x0)) (data_bin_len c) /\
                stop = lo /\ start = lo + n0 - 1).
    { intros x Hx.
      rewrite (get_data_ok c d Hdata), bind_ret. unfold lshift.
      destruct (Z.ltb_spec stop 0) as [Hneg|Hpos]; [discriminate|].
      rewrite !bind_ret. cbn [ret outcome]. intros [= <-].
      right. exists stop, n, x. repeat split; try lia; subst n; lia. }
    destruct (Z.eqb_spec value (-1)) as [->|Hm1].
    + rewrite !bind_ret. rewrite Z.leb_refl. apply Hwrite. lia.
    + destruct (Z.leb_spec 0 value) as [Hnn|Hneg].
      * rewrite !bind_ret. rewrite get_bin_len_mask by lia.
        destruct (Z.leb_spec (get_bin_len value) n) as [Hfit|Hbig].
        -- apply get_bin_len_le in Hfit; try lia. apply Hwrite. lia.
        -- cbn. intros [= <-]. now left.
      * cbn. discriminate.
  - rewrite bitmask_ok by lia. rewrite bind_ret.
    change (2 ^ 1 - 1) with 1. change (get_bin_len 1) with 1.
    destruct (Z.leb_spec (get_bin_len value) 1) as [Hfit|Hbig];
      [|cbn; intros [= <-]; now left].
    apply get_bin_len_le_1 in Hfit.
    rewrite (get_data_ok c d Hdata), bind_ret. unfold lshift.
    destruct (Z.ltb_spec i 0) as [Hneg|Hpos]; [discriminate|].
    rewrite !bind_ret. cbn [ret outcome]. intros [= <-].
    right. exists i, 1, value. change (2 ^ 1) with 2. repeat split; lia.
Qed.

(** Whatever the index and the value, a write that returns leaves the width
    as it was and changes no bit outside the range the index names: bits
    below [stop] or above [start] for a slice, bits other than [i] for an
    index. *)
Theorem setitem_frame (c c' : t) (d : Z) (ix : index) (value : Z) :
  data c = Some d ->
  outcome (__setitem__ c ix value) = Returned c' ->
  data_bin_len c' = data_bin_len c /\
  exists d',
    data c' = Some d' /\
    forall i, 0 <= i ->
      match ix with
      | Slice start stop _ => i < stop \/ start < i
      | Bit j => i <> j
      end ->
      Z.testbit d' i = Z.testbit d i.
Proof.
  intros Hdata Hret.
  destruct (setitem_cases c c' d ix value Hdata Hret)
    as [->|(lo & n & x & Hlo & Hn & Hfit & Hx & -> & Hix)].
  - split; [reflexivity|]. exists d. split; [exact Hdata|reflexivity].
  - split; [reflexivity|]. exists (write_field d lo n x).
    split; [reflexivity|]. intros i Hi Hout.
    rewrite write_field_testbit by lia.
    destruct (Z.leb_spec lo i), (Z.ltb_spec i (lo + n)); cbn [andb];
      try reflexivity.
    destruct ix as [start stop step|j]; lia.
Qed.

Lemma setitem_frame_witness :
  data_bin_len (mk (Some 0xdeadbabe) 32) = data_bin_len (mk (Some 0xdeadbeef) 32) /\
  exists d',
    data (mk (Some 0xdeadbabe) 32) = Some d' /\
    forall i, 0 <= i -> i < 0 \/ 15 < i ->
      Z.testbit d' i = Z.testbit 0xdeadbeef i.
Proof.
  apply (setitem_frame (mk (Some 0xdeadbeef) 32) (mk (Some 0xdeadbabe) 32)
           0xdeadbeef (Slice 15 0 None) 0xbabe eq_refl).
  reflexivity.
Defined.

(** An index outside the container is refused: a slice with a step, with
    its bounds the wrong way round or with [start] at or above the width, or
    a single index at or above the width.  The read returns [None], the
    write returns the container as it was, and both end their complaints
    with "invalid slice range".  A negative single index is not refused
    but makes the shift raise [ValueError]. *)
Theorem index_outside_refused (c : t) (ix : index) (value : Z) :
  (match ix with
   | Slice start stop step =>
       step <> None \/ start < stop \/ data_bin_len c <= start
   | Bit i => data_bin_len c <= i
   end ->
   outcome (__getitem__ c ix) = Returned None /\
   outcome (__setitem__ c ix value) = Returned c /\
   last (printed (__getitem__ c ix)) "" = "CommonBits: Error: invalid slice range" /\
   last (printed (__setitem__ c ix value)) "" = "CommonBits: Error: invalid slice range") /\
  (forall i d, ix = Bit i -> i < 0 -> 0 < data_bin_len c -> data c = Some d ->
   __getitem__ c ix = raise ValueError /\
   (0 <= value < 2 -> __setitem__ c ix value = raise ValueError)).
Proof.
  split.
  - intros Hbad.
    assert (Hk : exists k pr, check_slice c ix = mkPy (Returned k) pr /\ k <> 0).
    { destruct ix as [start stop step|i]; unfold check_slice.
      - destruct step as [s|]; destruct (Z.ltb_spec start stop);
          destruct (Z.leb_spec (data_bin_len c) start);
          (do 2 eexists; split; [reflexivity|]; try lia).
        destruct Hbad as [Hs|[Hs|Hs]]; [congruence|lia|lia].
      - rewrite leb_true by lia. do 2 eexists. split; [reflexivity|lia]. }
    destruct Hk as (k & pr & Hk & Hne).
    unfold __getitem__, __setitem__. rewrite Hk. unfold bind.
    cbn [outcome printed].
    apply Z.eqb_neq in Hne. rewrite Hne. cbn [outcome printed print ret app].
    rewrite !last_last. repeat split.
  - intros i d -> Hi Hw Hdata. split.
    + unfold __getitem__. rewrite check_bit_ok by lia. py_simpl. cbn [Z.eqb].
      rewrite bitmask_ok by lia. py_simpl.
      rewrite (get_data_ok c d Hdata). py_simpl.
      unfold rshift. now rewrite ltb_true by lia.
    + intros Hv. unfold __setitem__.
      rewrite check_bit_ok by lia. py_simpl. cbn [Z.eqb].
      rewrite bitmask_ok by lia. py_simpl.
      change (2 ^ 1 - 1) with 1. change (get_bin_len 1) with 1.
      rewrite leb_true by (apply get_bin_len_le_1; lia).
      rewrite (get_data_ok c d Hdata). py_simpl.
      unfold lshift. now rewrite ltb_true by lia.
Qed.

Lemma index_outside_refused_witness :
  outcome (__getitem__ (mk (Some 5) 4) (Slice 1 3 None)) = Returned None /\
  outcome (__setitem__ (mk (Some 5) 4) (Slice 1 3 None) 1) = Returned (mk (Some 5) 4) /\
  __getitem__ (mk (Some 5) 4) (Bit (-1)) = raise ValueError.
Proof.
  pose proof (index_outside_refused (mk (Some 5) 4) (Slice 1 3 None) 1) as (H1 & _).
  pose proof (index_outside_refused (mk (Some 5) 4) (Bit (-1)) 1) as (_ & H2).
  destruct H1 as (Ha & Hb & _); [right; left; lia|].
  split; [exact Ha|]. split; [exact Hb|].
  apply (H2 (-1) 5 eq_refl); [lia|simpl; lia|reflexivity].
Defined.

(** ** What the container shows *)

(** A range read in arithmetic terms. *)
Lemma getitem_slice_div_mod (c : t) (d h l : Z) :
  data c = Some d -> 0 <= l /\ l <= h < data_bin_len c ->
  __getitem__ c (Slice h l None) = ret (Some ((d / 2 ^ l) mod 2 ^ (h - l + 1))).
Proof.
  intros Hdata Hrange. rewrite (getitem_slice c d h l Hdata Hrange).
  rewrite land_mask by lia. now rewrite Z.shiftr_div_pow2 by lia.
Qed.

(** For a container of width 1 or more, a range read returns
    [floor(d / 2^l) mod 2^(h-l+1)], and [__repr__] shows [data mod 2^width]
    in decimal: the whole value when it fits the width, and its low bits
    when it does not, as for [CommonBits(0xDEADBEEF, 16)], shown as 0xbeef. *)
Theorem repr_low_bits (c : t) (d h l : Z) :
  data c = Some d -> 0 < data_bin_len c ->
  (0 <= l /\ l <= h < data_bin_len c ->
   __getitem__ c (Slice h l None) = ret (Some ((d / 2 ^ l) mod 2 ^ (h - l + 1)))) /\
  __repr__ c = ret (fmt_d (d mod 2 ^ data_bin_len c)) /\
  (0 <= d < 2 ^ data_bin_len c -> __repr__ c = ret (fmt_d d)) /\
  __repr__ (mk (Some 0xDEADBEEF) 16) = ret (fmt_d 0xBEEF).
Proof.
  intros Hdata Hw.
  assert (Hrepr : __repr__ c = ret (fmt_d (d mod 2 ^ data_bin_len c))).
  { unfold __repr__. destruct (Z.ltb_spec 1 (data_bin_len c)) as [Hbig|Hone].
    - rewrite (getitem_slice_div_mod c d _ 0 Hdata) by lia. py_simpl.
      rewrite Z.pow_0_r, Z.div_1_r.
      now replace (data_bin_len c - 1 - 0 + 1) with (data_bin_len c) by lia.
    - rewrite (getitem_bit c d 0 Hdata) by lia. py_simpl.
      replace (data_bin_len c) with 1 by lia.
      rewrite Z.testbit_spec' by lia.
      now rewrite Z.pow_0_r, Z.div_1_r, Z.pow_1_r. }
  split; [now apply getitem_slice_div_mod|].
  split; [exact Hrepr|]. split; [|reflexivity].
  intros Hd. rewrite Hrepr. now rewrite Z.mod_small.
Qed.

Lemma repr_low_bits_witness :
  __getitem__ (mk (Some 0xDEADBEEF) 32) (Slice 31 16 None) =
    ret (Some ((0xDEADBEEF / 2 ^ 16) mod 2 ^ (31 - 16 + 1))) /\
  __repr__ (mk (Some 300) 8) = ret (fmt_d (300 mod 2 ^ 8)).
Proof.
  split.
  - apply (proj1 (repr_low_bits (mk (Some 0xDEADBEEF) 32) 0xDEADBEEF 31 16
                    eq_refl ltac:(simpl; lia))).
    simpl. lia.
  - apply (proj1 (proj2 (repr_low_bits (mk (Some 300) 8) 300 0 0
                           eq_refl ltac:(simpl; lia)))).
Defined.

(** ** Concatenation, further *)

(** Concatenation can be undone and regrouped: the two parts of [a & b] read
    back as [a]'s and [b]'s data, and [(a & b) & c] is [a & (b & c)]. *)
Theorem and_parts_assoc (a b c : t) (da db dc : Z) :
  data a = Some da -> data b = Some db -> data c = Some dc ->
  0 < data_bin_len a -> 0 < data_bin_len b -> 0 < data_bin_len c ->
  0 <= da < 2 ^ data_bin_len a -> 0 <= db < 2 ^ data_bin_len b ->
  0 <= dc < 2 ^ data_bin_len c ->
  (ab <- __and__ a b ;;
   __getitem__ ab (Slice (data_bin_len a + data_bin_len b - 1) (data_bin_len b) None))
    = ret (Some da) /\
  (ab <- __and__ a b ;; __getitem__ ab (Slice (data_bin_len b - 1) 0 None))
    = ret (Some db) /\
  (ab <- __and__ a b ;; __and__ ab c) = (bc <- __and__ b c ;; __and__ a bc).
Proof.
  intros Ha Hb Hc Hwa Hwb Hwc Hda Hdb Hdc.
  pose proof (pow2_pos (data_bin_len a) ltac:(lia)) as Hpa.
  pose proof (pow2_pos (data_bin_len b) ltac:(lia)) as Hpb.
  pose proof (pow2_pos (data_bin_len c) ltac:(lia)) as Hpc.
  rewrite !(and_well_formed a b da db) by assumption.
  rewrite !(and_well_formed b c db dc) by assumption.
  rewrite !bind_ret.
  assert (Hab : 0 <= da * 2 ^ data_bin_len b + db
                < 2 ^ (data_bin_len a + data_bin_len b)).
  { rewrite Z.pow_add_r by lia. nia. }
  assert (Hbc : 0 <= db * 2 ^ data_bin_len c + dc
                < 2 ^ (data_bin_len b + data_bin_len c)).
  { rewrite Z.pow_add_r by lia. nia. }
  split; [|split].
  - rewrite getitem_slice_div_mod with (d := da * 2 ^ data_bin_len b + db)
      by (cbn [data data_bin_len]; first [reflexivity|lia]).
    do 2 f_equal.
    replace (data_bin_len a + data_bin_len b - 1 - data_bin_len b + 1)
      with (data_bin_len a) by lia.
    rewrite Z.div_add_l, (Z.div_small db), Z.add_0_r by lia.
    now apply Z.mod_small.
  - rewrite getitem_slice_div_mod with (d := da * 2 ^ data_bin_len b + db)
      by (cbn [data data_bin_len]; first [reflexivity|lia]).
    do 2 f_equal.
    replace (data_bin_len b - 1 - 0 + 1) with (data_bin_len b) by lia.
    rewrite Z.pow_0_r, Z.div_1_r.
    rewrite Z.add_comm, Z.mod_add by lia. now apply Z.mod_small.
  - rewrite and_well_formed
      with (da := da * 2 ^ data_bin_len b + db) (db := dc)
      by (cbn [data data_bin_len]; first [reflexivity|assumption|lia]).
    rewrite and_well_formed
      with (da := da) (db := db * 2 ^ data_bin_len c + dc)
      by (cbn [data data_bin_len]; first [reflexivity|assumption|lia]).
    cbn [data_bin_len]. f_equal. f_equal.
    + f_equal. rewrite Z.pow_add_r by lia. ring.
    + ring.
Qed.

Lemma and_parts_assoc_witness :
  (ab <- __and__ (mk (Some 5) 3) (mk (Some 2) 4) ;; __and__ ab (mk (Some 1) 2)) =
  (bc <- __and__ (mk (Some 2) 4) (mk (Some 1) 2) ;; __and__ (mk (Some 5) 3) bc).
Proof.
  apply (and_parts_assoc (mk (Some 5) 3) (mk (Some 2) 4) (mk (Some 1) 2) 5 2 1
           eq_refl eq_refl eq_refl); simpl; lia.
Defined.

(** ** The string-based reversal *)

Lemma bin_digits_chars (p : positive) (acc : string) :
  list_ascii_of_string (bin_digits p acc) =
    rev (bit_chars (Zpos p) (Pos.size_nat p)) ++ list_ascii_of_string acc.
Proof.
  revert acc. induction p as [q IH|q IH|]; intros acc.
  - cbn [bin_digits Pos.size_nat]. rewrite IH. cbn [list_ascii_of_string].
    unfold bit_chars. cbn [seq map rev]. rewrite <- seq_shift, map_map.
    rewrite <- app_assoc. cbn [app]. do 2 f_equal.
    apply map_ext. intros j. f_equal.
    rewrite Nat2Z.inj_succ.
    change (Z.pos q~1) with (2 * Z.pos q + Z.b2z true).
    symmetry. apply Z.testbit_succ_r. lia.
  - cbn [bin_digits Pos.size_nat]. rewrite IH. cbn [list_ascii_of_string].
    unfold bit_chars. cbn [seq map rev]. rewrite <- seq_shift, map_map.
    rewrite <- app_assoc. cbn [app]. do 2 f_equal.
    apply map_ext. intros j. f_equal.
    rewrite Nat2Z.inj_succ.
    change (Z.pos q~0) with (2 * Z.pos q + Z.b2z false).
    symmetry. apply Z.testbit_succ_r. lia.
  - reflexivity.
Qed.

Lemma zeros_chars (n : nat) (s : string) :
  list_ascii_of_string (zeros n s) = repeat "0"%char n ++ list_ascii_of_string s.
Proof. induction n as [|n IH]; cbn; [reflexivity|now rewrite IH]. Qed.

Lemma rev_repeat {A} (x : A) (n : nat) : rev (repeat x n) = repeat x n.
Proof.
  induction n as [|n IH]; [reflexivity|].
  cbn [repeat rev]. rewrite IH. symmetry. apply repeat_cons.
Qed.

(** Above its bit length a natural number has only zero digits. *)
Lemma bit_chars_above (d : Z) (m k : nat) :
  0 <= d < 2 ^ Z.of_nat m ->
  bit_chars d (m + k) = bit_chars d m ++ repeat "0"%char k.
Proof.
  intros Hd. unfold bit_chars. rewrite seq_app, map_app. f_equal.
  cbn [Nat.add]. induction k as [|k IH] in m, Hd |- *; [reflexivity|].
  cbn [seq map repeat]. f_equal.
  - now rewrite (testbit_small d (Z.of_nat m)) by lia.
  - apply (IH (S m)). split; [lia|].
    rewrite Nat2Z.inj_succ, Z.pow_succ_r by lia. lia.
Qed.

Lemma get_bin_len_nat (d : Z) :
  0 <= d -> 0 <= d < 2 ^ Z.of_nat (Z.to_nat (get_bin_len d)).
Proof.
  intros Hd. pose proof (get_bin_len_ge_1 d) as Hl.
  rewrite Z2Nat.id by lia. split; [exact Hd|].
  apply get_bin_len_le; lia.
Qed.

(** The formatted string, read as characters, is the bits of [d], most
    significant first, over the larger of the width and the bit length. *)
Lemma format_0b_chars (w d : Z) :
  0 <= d ->
  list_ascii_of_string (format_0b w d) =
    rev (bit_chars d (Nat.max (Z.to_nat w) (Z.to_nat (get_bin_len d)))).
Proof.
  intros Hd. pose proof (get_bin_len_nat d Hd) as Hb.
  set (L := Z.to_nat (get_bin_len d)) in *.
  assert (HL : (1 <= L)%nat) by (pose proof (get_bin_len_ge_1 d); subst L; lia).
  replace (Nat.max (Z.to_nat w) L) with (L + (Z.to_nat w - L))%nat by lia.
  rewrite bit_chars_above by exact Hb.
  rewrite rev_app_distr, rev_repeat.
  destruct d as [|p|p]; [| |lia].
  - unfold format_0b. rewrite zeros_chars. subst L.
    rewrite get_bin_len_0. change (Z.to_nat 1) with 1%nat. reflexivity.
  - unfold format_0b. rewrite zeros_chars, bin_digits_chars.
    cbn [list_ascii_of_string]. rewrite app_nil_r.
    subst L. rewrite get_bin_len_pos, Nat2Z.id.
    rewrite length_bin_digits. cbn [String.length].
    now rewrite Nat.add_0_r.
Qed.

Lemma bin_value_digits (bs : list bool) (acc : Z) :
  bin_value (string_of_list_ascii (map digit bs)) acc =
    Some (fold_left (fun a b => 2 * a + Z.b2z b) bs acc).
Proof.
  revert acc. induction bs as [|b bs IH]; intros acc; [reflexivity|].
  cbn [map string_of_list_ascii bin_value fold_left].
  destruct b; cbn [digit Ascii.eqb Bool.eqb andb Z.b2z]; rewrite IH.
  - reflexivity.
  - now rewrite Z.add_0_r.
Qed.

Lemma int_base2_digits (bs : list bool) :
  bs <> [] ->
  int_base2 (string_of_list_ascii (map digit bs)) =
    Some (fold_left (fun a b => 2 * a + Z.b2z b) bs 0).
Proof.
  intros Hne. destruct bs as [|b bs]; [congruence|].
  rewrite <- bin_value_digits.
  cbn [map string_of_list_ascii int_base2].
  destruct b; reflexivity.
Qed.

(** One more round of the loop of [reverse_bits]. *)
Lemma reverse_bits_succ (d : Z) (k : nat) :
  reverse_bits d (Z.of_nat (S k)) =
    2 * reverse_bits d (Z.of_nat k) + Z.b2z (Z.testbit d (Z.of_nat k)).
Proof.
  unfold reverse_bits.
  rewrite Nat2Z.inj_succ, <- Z.add_1_r, range_succ by lia.
  rewrite fold_left_app. cbn [fold_left].
  pose proof (reverse_bits_loop d k) as H. cbv zeta in H.
  destruct (fold_left _ (range 0 (Z.of_nat k)) (0, d)) as [R n].
  cbn [fst snd] in *. destruct H as (-> & _ & _).
  rewrite Z.shiftl_mul_pow2, Z.pow_1_r, land_1, Z.shiftr_spec by lia.
  rewrite Z.add_0_l. lia.
Qed.

Lemma fold_bits_reverse_bits (d : Z) (n : nat) :
  fold_left (fun a b => 2 * a + Z.b2z b)
    (map (fun j => Z.testbit d (Z.of_nat j)) (seq 0 n)) 0 =
  reverse_bits d (Z.of_nat n).
Proof.
  induction n as [|n IH]; [reflexivity|].
  rewrite seq_S, map_app, fold_left_app. cbn [map fold_left Nat.add].
  rewrite IH. symmetry. apply reverse_bits_succ.
Qed.

(** [reversed()] is [reverse_bits] over the larger of the width and the bit
    length of the data: over the width, when the data fits it.  An 8-bit
    container holding 1 reverses to 128. *)
Theorem reversed_reverse_bits (c : t) (d : Z) :
  data c = Some d -> 0 <= d -> 0 <= data_bin_len c ->
  reversed c = ret (reverse_bits d (Z.max (data_bin_len c) (get_bin_len d))) /\
  (0 < data_bin_len c -> d < 2 ^ data_bin_len c ->
   reversed c = ret (reverse_bits d (data_bin_len c))) /\
  reversed (mk (Some 1) 8) = ret 128.
Proof.
  intros Hdata Hd Hw.
  assert (Hmain : reversed c =
            ret (reverse_bits d (Z.max (data_bin_len c) (get_bin_len d)))).
  { unfold reversed. rewrite (get_data_ok c d Hdata), bind_ret.
    rewrite ltb_false by lia.
    pose proof (get_bin_len_ge_1 d) as Hl.
    set (N := Nat.max (Z.to_nat (data_bin_len c)) (Z.to_nat (get_bin_len d))).
    assert (HN : Z.of_nat N = Z.max (data_bin_len c) (get_bin_len d))
      by (subst N; lia).
    assert (Hs : string_rev (format_0b (data_bin_len c) d) =
                 string_of_list_ascii
                   (map digit (map (fun j => Z.testbit d (Z.of_nat j)) (seq 0 N)))).
    { unfold string_rev. rewrite format_0b_chars by exact Hd. fold N.
      rewrite rev_involutive. unfold bit_chars. now rewrite map_map. }
    rewrite Hs, int_base2_digits.
    - now rewrite fold_bits_reverse_bits, HN.
    - assert (HN1 : (1 <= N)%nat) by lia.
      destruct N; [lia|]. discriminate. }
  split; [exact Hmain|]. split; [|reflexivity].
  intros Hw0 Hlt. rewrite Hmain. do 2 f_equal.
  assert (get_bin_len d <= data_bin_len c) by (apply get_bin_len_le; lia).
  lia.
Qed.

Lemma reversed_reverse_bits_witness :
  reversed (mk (Some 6) 4) = ret (reverse_bits 6 4).
Proof.
  apply (proj1 (proj2 (reversed_reverse_bits (mk (Some 6) 4) 6 eq_refl
                         ltac:(lia) ltac:(simpl; lia)))).
  - simpl. lia.
  - simpl. lia.
Defined.

(** ** Construction, further *)

(** Without a positive width the constructor takes the bit length of the
    value, which is the least width that holds it: the value is below
    [2^width], and at or above [2^(width-1)] unless the width is 1. *)
Theorem init_default_minimal (value bits : Z) :
  0 <= value -> bits <= 0 ->
  exists c,
    __init__ value bits = ret c /\
    data c = Some value /\
    1 <= data_bin_len c /\
    value < 2 ^ data_bin_len c /\
    (1 < data_bin_len c -> 2 ^ (data_bin_len c - 1) <= value).
Proof.
  intros Hv Hb. exists (mk (Some value) (get_bin_len value)).
  pose proof (get_bin_len_ge_1 value) as Hl.
  split; [now apply init_default|]. split; [reflexivity|].
  cbn [data_bin_len]. split; [exact Hl|]. split.
  - apply get_bin_len_le; lia.
  - intros Hbig.
    destruct (Z.lt_ge_cases value (2 ^ (get_bin_len value - 1))) as [Hlt|]; [|lia].
    apply get_bin_len_le in Hlt; lia.
Qed.

Lemma init_default_minimal_witness :
  exists c,
    __init__ 0xDEADBEEF 0 = ret c /\
    data c = Some 0xDEADBEEF /\
    1 <= data_bin_len c /\
    0xDEADBEEF < 2 ^ data_bin_len c /\
    (1 < data_bin_len c -> 2 ^ (data_bin_len c - 1) <= 0xDEADBEEF).
Proof. apply (init_default_minimal 0xDEADBEEF 0); lia. Defined.



Lemma int_round_nearest_witness :
  exists q,
    int_round (-3) 1 "HALF_EVEN" false 0 = ret q /\
    - 2 ^ (1 - 1) <= -3 - q * 2 ^ 1 <= 2 ^ (1 - 1).
Proof.
  apply (int_round_nearest (-3) 1 0 "HALF_EVEN"); [lia|]. right. now right.
Defined.

(** ** Positions of the bits, in general *)

(** For a container whose data is a natural number, [hi()] returns the
    positions of the one bits below the width, low to high; [lo()] returns
    the positions of the zero bits below the width and below the bit length
    of the data, so it is complete exactly when the data uses the whole
    width. *)
Theorem positions_returned (c : t) (d : Z) :
  data c = Some d -> 0 <= d ->
  outcome (hi c) = Returned (high_bit_positions_spec d (data_bin_len c)) /\
  outcome (lo c) =
    Returned (filter (fun i => (i <? get_bin_len d) && negb (Z.testbit d i))
                     (range 0 (data_bin_len c))) /\
  (data_bin_len c <= get_bin_len d ->
   outcome (lo c) = Returned (low_bit_positions_spec d (data_bin_len c))).
Proof.
  intros Hdata Hd.
  split; [now apply hi_returns|]. split; [now apply lo_returns|].
  intros Hw. rewrite (lo_returns c d Hdata Hd). f_equal.
  unfold low_bit_positions_spec. apply filter_ext_in.
  intros i Hin. apply in_range in Hin. now rewrite ltb_true by lia.
Qed.

Lemma positions_returned_witness :
  outcome (hi (mk (Some 5) 4)) = Returned (high_bit_positions_spec 5 4) /\
  outcome (lo (mk (Some 5) 3)) = Returned (low_bit_positions_spec 5 3).
Proof.
  split.
  - apply (proj1 (positions_returned (mk (Some 5) 4) 5 eq_refl ltac:(lia))).
  - apply (proj2 (proj2 (positions_returned (mk (Some 5) 3) 5 eq_refl ltac:(lia)))).
    vm_compute. discriminate.
Defined.

(** ** Symbol views *)

Lemma bind_returned {A B} (a : A) (pr : list string) (f : A -> Py B) :
  bind (mkPy (Returned a) pr) f = mkPy (outcome (f a)) (pr ++ printed (f a)).
Proof. reflexivity. Qed.

(** A symbol of [w] bits at symbol index [s] is the field of bits
    [[(s+1)*w - 1 : s*w]]: reading it returns digit [s] of the data in base
    [2^w]; writing a value of [w] bits and reading it back returns the
    value, and the other symbols read as before. *)
Theorem symbol_roundtrip (self : CommonSymbols.t) (d s x : Z) :
  data (CommonSymbols.base self) = Some d ->
  0 < CommonSymbols.symbol_w self ->
  0 <= s ->
  (s + 1) * CommonSymbols.symbol_w self <= data_bin_len (CommonSymbols.base self) ->
  CommonSymbols.__getitem__ self (Bit s) =
    ret (Some ((d / 2 ^ (s * CommonSymbols.symbol_w self))
               mod 2 ^ CommonSymbols.symbol_w self)) /\
  (0 <= x < 2 ^ CommonSymbols.symbol_w self ->
   exists self',
     CommonSymbols.__setitem__ self (Bit s) x = ret self' /\
     CommonSymbols.symbol_w self' = CommonSymbols.symbol_w self /\
     data_bin_len (CommonSymbols.base self') =
       data_bin_len (CommonSymbols.base self) /\
     CommonSymbols.__getitem__ self' (Bit s) = ret (Some x) /\
     forall s', 0 <= s' -> s' <> s ->
       (s' + 1) * CommonSymbols.symbol_w self
         <= data_bin_len (CommonSymbols.base self) ->
       CommonSymbols.__getitem__ self' (Bit s') =
         CommonSymbols.__getitem__ self (Bit s')).
Proof.
  destruct self as [b w n]. cbn [CommonSymbols.base CommonSymbols.symbol_w].
  intros Hdata Hw Hs Hfit.
  assert (Hread : forall b' d' s',
            data b' = Some d' -> data_bin_len b' = data_bin_len b ->
            0 <= s' -> (s' + 1) * w <= data_bin_len b ->
            CommonSymbols.__getitem__ (CommonSymbols.mk b' w n) (Bit s') =
              ret (Some (Z.land (Z.shiftr d' (s' * w)) (2 ^ w - 1)))).
  { intros b' d' s' Hd' Hlen Hs' Hfit'.
    unfold CommonSymbols.__getitem__, CommonSymbols.symbolslice_to_bitslice.
    cbn [CommonSymbols.base CommonSymbols.symbol_w].
    rewrite (getitem_slice b' d') by (try exact Hd'; nia).
    replace ((1 + s') * w - 1 - ((1 + s') * w - w) + 1) with w by ring.
    now replace ((1 + s') * w - w) with (s' * w) by ring. }
  split.
  - rewrite (Hread b d s Hdata eq_refl Hs Hfit).
    rewrite land_mask by lia. now rewrite Z.shiftr_div_pow2 by nia.
  - intros Hx.
    set (d' := write_field d (s * w) w x).
    exists (CommonSymbols.mk (mk (Some d') (data_bin_len b)) w n).
    cbn [CommonSymbols.base CommonSymbols.symbol_w data_bin_len].
    split.
    + unfold CommonSymbols.__setitem__, CommonSymbols.symbolslice_to_bitslice.
      cbn [CommonSymbols.base CommonSymbols.symbol_w CommonSymbols.data_symbol_len].
      rewrite (setitem_slice b d) by (try exact Hdata; try nia;
        replace ((1 + s) * w - 1 - ((1 + s) * w - w) + 1) with w by ring; lia).
      rewrite bind_ret. subst d'.
      replace ((1 + s) * w - 1 - ((1 + s) * w - w) + 1) with w by ring.
      now replace ((1 + s) * w - w) with (s * w) by ring.
    + split; [reflexivity|]. split; [reflexivity|]. split.
      * rewrite (Hread (mk (Some d') (data_bin_len b)) d' s eq_refl eq_refl Hs Hfit).
        subst d'. now rewrite read_write_field by nia.
      * intros s' Hs' Hne Hfit'.
        rewrite (Hread (mk (Some d') (data_bin_len b)) d' s' eq_refl eq_refl Hs' Hfit').
        rewrite (Hread b d s' Hdata eq_refl Hs' Hfit').
        do 2 f_equal. apply Z.bits_inj'; intros i Hi.
        rewrite !Z.land_spec, !Z.shiftr_spec by lia.
        replace (2 ^ w - 1) with (Z.ones w) by (rewrite Z.ones_equiv; lia).
        rewrite Z.testbit_ones_nonneg by lia.
        destruct (Z.ltb_spec i w); [|now rewrite !andb_false_r].
        rewrite !andb_true_r. subst d'.
        rewrite write_field_testbit by nia.
        destruct (Z.leb_spec (s * w) (i + s' * w)),
          (Z.ltb_spec (i + s' * w) (s * w + w)); cbn [andb]; try reflexivity.
        assert (s' < s \/ s < s') as [Hlt|Hlt] by lia; nia.
Qed.

Lemma symbol_roundtrip_witness :
  CommonSymbols.__getitem__ (CommonSymbols.mk (mk (Some 0xC0A80001) 32) 8 4) (Bit 3) =
    ret (Some ((0xC0A80001 / 2 ^ (3 * 8)) mod 2 ^ 8)).
Proof.
  apply (proj1 (symbol_roundtrip (CommonSymbols.mk (mk (Some 0xC0A80001) 32) 8 4)
                  0xC0A80001 3 0 eq_refl ltac:(simpl; lia) ltac:(lia)
                  ltac:(simpl; lia))).
Defined.

(** What the constructor does with a natural number and a positive width. *)
Lemma init_natural (value bits : Z) :
  0 <= value -> 0 < bits ->
  exists pr,
    __init__ value bits = mkPy (Returned (mk (Some value) bits)) pr /\
    (value < 2 ^ bits -> pr = []).
Proof.
  intros Hv Hb. unfold __init__.
  rewrite leb_true by lia. py_simpl. rewrite ltb_true by lia.
  destruct (Z.ltb_spec bits (get_bin_len value)) as [Hbig|Hfit].
  - rewrite bind_print. eexists. split; [reflexivity|].
    intros Hlt. apply get_bin_len_le in Hlt; lia.
  - py_simpl. exists []. split; [reflexivity|easy].
Qed.

(** For a natural number [n], [ip_str] returns the low four bytes of [n] in
    decimal, most significant first, with dots between them; nothing is
    printed when [n] is below [2^32].  For a negative [n] it fails with
    [AttributeError]. *)
Theorem ip_str_dotted (n : Z) :
  (0 <= n ->
   outcome (ip_str n) =
     Returned (fmt_d ((n / 2 ^ 24) mod 256) ++ "." ++
               fmt_d ((n / 2 ^ 16) mod 256) ++ "." ++
               fmt_d ((n / 2 ^ 8) mod 256) ++ "." ++
               fmt_d (n mod 256))%string /\
   (n < 2 ^ 32 -> printed (ip_str n) = [])) /\
  (n < 0 -> outcome (ip_str n) = Raised AttributeError).
Proof.
  split.
  - intros Hn. unfold ip_str.
    destruct (init_natural n (4 * 8) Hn ltac:(lia)) as (pr & -> & Hpr).
    rewrite bind_returned.
    unfold CommonSymbols.__getitem__, CommonSymbols.symbolslice_to_bitslice.
    cbn [CommonSymbols.base CommonSymbols.symbol_w].
    change ((1 + 3) * 8 - 1) with 31. change ((1 + 3) * 8 - 8) with 24.
    change ((1 + 2) * 8 - 1) with 23. change ((1 + 2) * 8 - 8) with 16.
    change ((1 + 1) * 8 - 1) with 15. change ((1 + 1) * 8 - 8) with 8.
    change ((1 + 0) * 8 - 1) with 7. change ((1 + 0) * 8 - 8) with 0.
    rewrite (getitem_slice_div_mod (mk (Some n) (4 * 8)) n 31 24 eq_refl) by (cbn; lia).
    rewrite (getitem_slice_div_mod (mk (Some n) (4 * 8)) n 23 16 eq_refl) by (cbn; lia).
    rewrite (getitem_slice_div_mod (mk (Some n) (4 * 8)) n 15 8 eq_refl) by (cbn; lia).
    rewrite (getitem_slice_div_mod (mk (Some n) (4 * 8)) n 7 0 eq_refl) by (cbn; lia).
    rewrite !bind_ret. cbn [outcome printed ret py_str].
    change (2 ^ (31 - 24 + 1)) with 256. change (2 ^ (23 - 16 + 1)) with 256.
    change (2 ^ (15 - 8 + 1)) with 256. change (2 ^ (7 - 0 + 1)) with 256.
    rewrite Z.pow_0_r, Z.div_1_r. split; [reflexivity|].
    intros Hlt. rewrite (Hpr Hlt). reflexivity.
  - intros Hn. unfold ip_str.
    assert (Hout : outcome (__init__ n (4 * 8)) = Returned (mk None (4 * 8))).
    { unfold __init__. rewrite leb_false by lia. rewrite ltb_true by lia.
      unfold bind. cbn [outcome printed print ret].
      now destruct (4 * 8 <? get_bin_len n). }
    rewrite (outcome_bind _ _ _ Hout). reflexivity.
Qed.

Lemma ip_str_dotted_witness :
  outcome (ip_str 0xC0A80001) =
    Returned (fmt_d ((0xC0A80001 / 2 ^ 24) mod 256) ++ "." ++
              fmt_d ((0xC0A80001 / 2 ^ 16) mod 256) ++ "." ++
              fmt_d ((0xC0A80001 / 2 ^ 8) mod 256) ++ "." ++
              fmt_d (0xC0A80001 mod 256))%string /\
  outcome (ip_str (-1)) = Raised AttributeError.
Proof.
  split.
  - apply (proj1 (proj1 (ip_str_dotted 0xC0A80001) ltac:(lia))).
  - apply (proj2 (ip_str_dotted (-1))). lia.
Defined.

(** ** List utilities *)

Lemma slice_index_le (len n : Z) : 0 <= len -> (slice_index len n <= Z.to_nat len)%nat.
Proof. intros Hl. unfold slice_index. destruct (Z.ltb_spec n 0); lia. Qed.

Lemma rotate_by_index {A} (l : list A) (n : Z) :
  rotate_list l n =
    skipn (slice_index (Z.of_nat (List.length l)) n) l ++
    firstn (slice_index (Z.of_nat (List.length l)) n) l.
Proof. reflexivity. Qed.

(** Rotating by [k] and then by the rest of the length is the identity. *)
Lemma rotate_back {A} (l : list A) (k : nat) :
  (k <= List.length l)%nat ->
  let l' := skipn k l ++ firstn k l in
  skipn (List.length l - k) l' ++ firstn (List.length l - k) l' = l.
Proof.
  intros Hk l'. subst l'.
  assert (Hlen : List.length (skipn k l) = (List.length l - k)%nat)
    by apply length_skipn.
  rewrite <- Hlen at 1. rewrite skipn_app, skipn_all, Nat.sub_diag. cbn [skipn app].
  rewrite <- Hlen. rewrite firstn_app, firstn_all, Nat.sub_diag. cbn [firstn].
  rewrite app_nil_r. apply firstn_skipn.
Qed.

(** [rotate_list] keeps the length and the elements of the list for every
    [n], also a negative one or one beyond the length, and rotating by [-n]
    undoes rotating by [n]. *)
Theorem rotate_list_roundtrip {A} (l : list A) (n : Z) :
  List.length (rotate_list l n) = List.length l /\
  (forall x, In x (rotate_list l n) <-> In x l) /\
  rotate_list (rotate_list l n) (- n) = l.
Proof.
  pose proof (slice_index_le (Z.of_nat (List.length l)) n ltac:(lia)) as Hk.
  rewrite Nat2Z.id in Hk.
  assert (Hlen : List.length (rotate_list l n) = List.length l).
  { rewrite rotate_by_index, length_app, length_skipn, length_firstn. lia. }
  split; [exact Hlen|]. split.
  - intros x. rewrite rotate_by_index, in_app_iff.
    set (k := slice_index (Z.of_nat (List.length l)) n).
    pose proof (firstn_skipn k l) as Hsplit.
    split.
    + intros [Hx|Hx]; rewrite <- Hsplit; apply in_app_iff; tauto.
    + intros Hx. rewrite <- Hsplit in Hx. apply in_app_iff in Hx. tauto.
  - rewrite (rotate_by_index (rotate_list l n)), Hlen.
    set (len := List.length l) in *.
    set (k := slice_index (Z.of_nat len) n) in *.
    assert (Hk' : slice_index (Z.of_nat len) (- n) = (len - k)%nat \/
                  (slice_index (Z.of_nat len) (- n) = 0%nat /\ k = 0%nat)).
    { subst k. unfold slice_index.
      destruct (Z.ltb_spec n 0), (Z.ltb_spec (- n) 0); lia. }
    destruct Hk' as [->|[-> Hk0]].
    + rewrite rotate_by_index. fold len. fold k. now apply rotate_back.
    + rewrite rotate_by_index. fold len. fold k. rewrite Hk0.
      cbn [skipn firstn]. now rewrite !app_nil_r.
Qed.

Lemma list_eqb_eq (a b : list Z) : list_eqb a b = true <-> a = b.
Proof.
  revert b. induction a as [|x a IH]; intros [|y b]; cbn [list_eqb];
    try (split; [discriminate|congruence]); [tauto|].
  rewrite andb_true_iff, Z.eqb_eq, IH. split.
  - intros [-> ->]. reflexivity.
  - intros [= -> ->]. now split.
Qed.

Lemma shifted_eq_all_same (a : Z) (rest : list Z) :
  rest = firstn (List.length rest) (a :: rest) <-> forall y, In y rest -> y = a.
Proof.
  revert a. induction rest as [|b r IH]; intros a.
  - cbn. split; [intros _ y []|reflexivity].
  - cbn [List.length firstn]. split.
    + intros [= Hb Hr]. subst b. pose proof (proj1 (IH a) Hr) as Hall.
      intros y [<-|Hy]; [reflexivity|]. now apply Hall.
    + intros Hall. assert (Hb : b = a) by (apply Hall; now left). subst b.
      f_equal. apply IH. intros y Hy. apply Hall. now right.
Qed.

(** [all_the_same] compares the list without its first element with the
    list without its last one, and this is true exactly when all elements
    are equal; in particular for the empty list. *)
Theorem all_the_same_correct (lst : list Z) :
  all_the_same lst = true <-> forall x y, In x lst -> In y lst -> x = y.
Proof.
  unfold all_the_same. rewrite list_eqb_eq.
  destruct lst as [|a rest].
  - cbn. split; [intros _ x y []|reflexivity].
  - unfold slice_from, slice_to, slice_index. cbn [List.length].
    change (1 <? 0) with false. change (-1 <? 0) with true. cbv iota.
    replace (Z.to_nat (Z.min 1 (Z.of_nat (S (List.length rest))))) with 1%nat by lia.
    replace (Z.to_nat (Z.max 0 (-1 + Z.of_nat (S (List.length rest)))))
      with (List.length rest) by lia.
    cbn [skipn]. rewrite shifted_eq_all_same. split.
    + intros Hall x y [<-|Hx] [<-|Hy].
      * reflexivity.
      * symmetry. now apply Hall.
      * now apply Hall.
      * rewrite (Hall x Hx). symmetry. now apply Hall.
    + intros Hall y Hy. apply Hall; [now right|now left].
Qed.

(** [extend_list] and [pad] return the same list: the input followed by
    copies of the element up to the length asked for, and the input itself
    when it is already that long. *)
Theorem extend_list_pad {A} (l : list A) (n : Z) (x : A) :
  pad l n x = extend_list l n x /\
  extend_list l n x = l ++ repeat x (Z.to_nat (n - Z.of_nat (List.length l))) /\
  Z.of_nat (List.length (extend_list l n x)) = Z.max (Z.of_nat (List.length l)) n /\
  (n <= Z.of_nat (List.length l) -> extend_list l n x = l).
Proof.
  assert (Hext : extend_list l n x =
                 l ++ repeat x (Z.to_nat (n - Z.of_nat (List.length l)))).
  { unfold extend_list. destruct (Z.ltb_spec (Z.of_nat (List.length l)) n).
    - reflexivity.
    - replace (Z.to_nat (n - Z.of_nat (List.length l))) with 0%nat by lia.
      cbn [repeat]. now rewrite app_nil_r. }
  split; [now rewrite Hext|]. split; [exact Hext|]. split.
  - rewrite Hext, length_app, repeat_length. lia.
  - intros Hn. rewrite Hext.
    replace (Z.to_nat (n - Z.of_nat (List.length l))) with 0%nat by lia.
    cbn [repeat]. now rewrite app_nil_r.
Qed.

Lemma extend_list_pad_witness :
  extend_list [1; 2; 3] 2 0 = [1; 2; 3].
Proof.
  apply (proj2 (proj2 (proj2 (extend_list_pad [1; 2; 3] 2 0)))). simpl. lia.
Defined.

(** The loop of [unique]. *)
Lemma unique_loop (l : list Z) (seen : list (Z * Z)) (result : list Z) :
  (forall x, existsb (fun kv => fst kv =? x) seen = true <-> In x result) ->
  NoDup result ->
  let st := fold_left
              (fun (st : list (Z * Z) * list Z) (item : Z) =>
                 let (seen, result) := st in
                 if existsb (fun kv => fst kv =? item) seen then st
                 else ((item, 1) :: seen, result ++ [item]))
              l (seen, result) in
  NoDup (snd st) /\
  (forall x, In x (snd st) <-> In x result \/ In x l) /\
  ((forall x, In x l -> ~ In x result) -> NoDup l -> snd st = result ++ l).
Proof.
  revert seen result. induction l as [|a l IH]; intros seen result Hseen Hnd.
  - cbn. split; [exact Hnd|]. split; [intros x; tauto|].
    intros _ _. now rewrite app_nil_r.
  - cbn [fold_left].
    destruct (existsb (fun kv => fst kv =? a) seen) eqn:Ha.
    + apply Hseen in Ha.
      destruct (IH seen result Hseen Hnd) as (H1 & H2 & H3).
      split; [exact H1|]. split.
      * intros x. rewrite H2. cbn [In]. split; [tauto|].
        intros [Hx|[<-|Hx]]; tauto.
      * intros Hdisj _. exfalso. apply (Hdisj a); [now left|exact Ha].
    + assert (Hna : ~ In a result).
      { intros Hin. apply Hseen in Hin. congruence. }
      assert (Hseen' : forall x,
                existsb (fun kv => fst kv =? x) ((a, 1) :: seen) = true <->
                In x (result ++ [a])).
      { intros x. cbn [existsb fst]. rewrite orb_true_iff, Z.eqb_eq, Hseen.
        rewrite in_app_iff. cbn [In]. tauto. }
      assert (Hnd' : NoDup (result ++ [a])).
      { apply NoDup_app; [exact Hnd|repeat constructor; intros []|].
        intros x Hx [<-|[]]. exact (Hna Hx). }
      destruct (IH _ _ Hseen' Hnd') as (H1 & H2 & H3).
      split; [exact H1|]. split.
      * intros x. rewrite H2, in_app_iff. cbn [In]. tauto.
      * intros Hdisj Hndl. inversion Hndl as [|? ? Hal Hndl']; subst.
        rewrite H3; [now rewrite <- app_assoc| |exact Hndl'].
        intros x Hx. rewrite in_app_iff. cbn [In].
        intros [Hr|[<-|[]]]; [apply (Hdisj x); [now right|exact Hr]|exact (Hal Hx)].
Qed.

(** [unique] returns a list without repetition that has exactly the elements
    of its input; a list without repetition comes back unchanged, so
    applying [unique] twice is applying it once. *)
Theorem unique_nodup (in_list : list Z) :
  NoDup (unique in_list) /\
  (forall x, In x (unique in_list) <-> In x in_list) /\
  (NoDup in_list -> unique in_list = in_list) /\
  unique (unique in_list) = unique in_list.
Proof.
  assert (Hloop : forall l,
            NoDup (unique l) /\ (forall x, In x (unique l) <-> In x l) /\
            (NoDup l -> unique l = l)).
  { intros l.
    destruct (unique_loop l [] []) as (H1 & H2 & H3).
    - intros x. cbn. split; [discriminate|tauto].
    - constructor.
    - split; [exact H1|]. split.
      + intros x. unfold unique. rewrite H2. cbn [In]. tauto.
      + intros Hnd. unfold unique. rewrite H3; [reflexivity| |exact Hnd].
        intros x _ []. }
  destruct (Hloop in_list) as (H1 & H2 & H3).
  split; [exact H1|]. split; [exact H2|]. split; [exact H3|].
  now apply Hloop.
Qed.

Lemma unique_nodup_witness : unique [3; 1; 2] = [3; 1; 2].
Proof.
  apply (proj1 (proj2 (proj2 (unique_nodup [3; 1; 2])))).
  repeat constructor; cbn; lia.
Defined.

Lemma fold_max_spec (rest : list Z) (x : Z) :
  (forall y, In y (x :: rest) -> y <= fold_left Z.max rest x) /\
  In (fold_left Z.max rest x) (x :: rest).
Proof.
  revert x. induction rest as [|b r IH]; intros x.
  - cbn. split; [intros y [<-|[]]; lia|now left].
  - cbn [fold_left]. destruct (IH (Z.max x b)) as (Hle & Hin). split.
    + intros y [Hy|[Hy|Hy]].
      * specialize (Hle (Z.max x b) (or_introl eq_refl)). lia.
      * specialize (Hle (Z.max x b) (or_introl eq_refl)). lia.
      * apply Hle. now right.
    + destruct Hin as [Heq|Hin]; [|now right; right].
      rewrite <- Heq. destruct (Z.max_spec x b) as [[_ ->]|[_ ->]];
        [right; now left|now left].
Qed.

Lemma fold_min_spec (rest : list Z) (x : Z) :
  (forall y, In y (x :: rest) -> fold_left Z.min rest x <= y) /\
  In (fold_left Z.min rest x) (x :: rest).
Proof.
  revert x. induction rest as [|b r IH]; intros x.
  - cbn. split; [intros y [<-|[]]; lia|now left].
  - cbn [fold_left]. destruct (IH (Z.min x b)) as (Hle & Hin). split.
    + intros y [Hy|[Hy|Hy]].
      * specialize (Hle (Z.min x b) (or_introl eq_refl)). lia.
      * specialize (Hle (Z.min x b) (or_introl eq_refl)). lia.
      * apply Hle. now right.
    + destruct Hin as [Heq|Hin]; [|now right; right].
      rewrite <- Heq. destruct (Z.min_spec x b) as [[_ ->]|[_ ->]];
        [now left|right; now left].
Qed.

(** On a list with at least one element [max_abs] returns the largest
    absolute value in the list; on the empty list it raises [ValueError]. *)
Theorem max_abs_largest (data : list Z) :
  (data <> [] ->
   exists m,
     max_abs data = ret m /\
     (forall x, In x data -> Z.abs x <= m) /\
     (exists x, In x data /\ Z.abs x = m)) /\
  max_abs [] = raise ValueError.
Proof.
  split; [|reflexivity].
  intros Hne. destruct data as [|a rest]; [congruence|].
  cbn [max_abs]. eexists. split; [reflexivity|].
  destruct (fold_max_spec rest a) as (Hmax & Hmaxin).
  destruct (fold_min_spec rest a) as (Hmin & Hminin).
  set (mx := fold_left Z.max rest a) in *.
  set (mn := fold_left Z.min rest a) in *.
  split.
  - intros x Hx. specialize (Hmax x Hx). specialize (Hmin x Hx). lia.
  - pose proof (Hmax mn Hminin). 
    destruct (Z.le_ge_cases (- mn) mx).
    + exists mx. split; [exact Hmaxin|]. lia.
    + exists mn. split; [exact Hminin|]. lia.
Qed.

Lemma max_abs_largest_witness :
  exists m,
    max_abs [3; -7; 2] = ret m /\
    (forall x, In x [3; -7; 2] -> Z.abs x <= m) /\
    (exists x, In x [3; -7; 2] /\ Z.abs x = m).
Proof. apply (proj1 (max_abs_largest [3; -7; 2])). discriminate. Defined.
